(** * Minesweeper: board, sentences and the inference engine

    A shallow embedding of [minesweeper.py] and the properties of its
    knowledge base.

    Conventions of the embedding.
    - A cell is a pair of Python integers, [Z * Z].
    - A Python [set] of cells is a [gset (Z * Z)]: extensional equality is
      Python's [==] on sets.
    - [self.knowledge] is a Python list of [Sentence] objects.  Every entry
      is a distinct object (each is built by a fresh [Sentence(...)] call),
      so the list of their values is the store; a reference held by a loop
      variable is the value it had when fetched, and in the one loop where
      sentences are mutated while a reference is held (the re-evaluation
      loop) the reference is the list position and is read again after the
      mutation.
    - A [for x in lst] loop over a Python list is the index loop CPython
      runs: fetch [lst[i]] while [i < len(lst)], increment [i], run the
      body; the body may shrink the list.
    - A [for x in s] loop over a Python set gets every cell of the set
      once, in an order that the program does not fix.  Where the loop
      stops at a cell it finds ([make_safe_move]) the order is an argument
      of the function; where it runs to the end (the marking loops) the
      result is the same for every order.
    - Exceptions ([ValueError] of [list.remove] and [random.randrange],
      [IndexError]) are explicit outcomes.  [print] calls are not modelled. *)

From Stdlib Require Import ZArith List Lia Ascii String.
From stdpp Require Import base decidable option list gmap sets fin_sets.

#[local] Set Warnings "-clear-no-such-hyp".

Local Open Scope Z_scope.

Abbreviation Cell := (Z * Z)%type (only parsing).

(** ** Python helpers *)

Module Py.

Inductive exn : Type := ValueError | IndexError.

(** Outcome of running a piece of code on a state of type [St]:
    it returns leaving the state [st], it raises [e] leaving the state
    [st], or the model ran out of fuel. *)
Inductive outcome (St : Type) : Type :=
| Returned (st : St)
| Raised (e : exn) (st : St)
| OutOfFuel.
Arguments Returned {St} st.
Arguments Raised {St} e st.
Arguments OutOfFuel {St}.

(** The code stopped, by returning or by raising, with the state [st]. *)
Definition leaves {St} (r : outcome St) (st : St) : Prop :=
  r = Returned st ∨ ∃ e, r = Raised e st.

(** [range(n)] *)
Definition range (n : Z) : list Z := map Z.of_nat (seq 0 (Z.to_nat n)).

(** [range(lo, hi)] *)
Definition range2 (lo hi : Z) : list Z :=
  map (fun k => lo + Z.of_nat k) (seq 0 (Z.to_nat (hi - lo))).

(** [lst.remove(x)]: drop the first entry equal to [x] (for sentences,
    equal by [__eq__]: same cells and same count); [None] stands for the
    [ValueError] raised when there is none. *)
Fixpoint remove `{EqDecision A} (x : A) (lst : list A) : option (list A) :=
  match lst with
  | [] => None
  | y :: rest =>
      if decide (y = x) then Some rest
      else match remove x rest with
           | Some rest' => Some (y :: rest')
           | None => None
           end
  end.

(** [lst[i]] with Python's negative indices; [None] is [IndexError]. *)
Definition index {A} (lst : list A) (i : Z) : option A :=
  if decide (0 <= i) then lst !! Z.to_nat i
  else if decide (- Z.of_nat (length lst) <= i)
       then lst !! Z.to_nat (Z.of_nat (length lst) + i)
       else None.

(** [lst[i] = x]; [None] is [IndexError]. *)
Definition set_index {A} (lst : list A) (i : Z) (x : A) : option (list A) :=
  if decide (0 <= i)
  then if decide (i < Z.of_nat (length lst))
       then Some (<[Z.to_nat i := x]> lst) else None
  else if decide (- Z.of_nat (length lst) <= i)
       then Some (<[Z.to_nat (Z.of_nat (length lst) + i) := x]> lst)
       else None.

(** [len(s)] of a set, as a Python integer. *)
Definition len (s : gset Cell) : Z := Z.of_nat (size s).

(** [order] is an order in which [for x in s] can get the cells of the
    set [s]: every cell of the set, each once. *)
Definition iterates (s : gset Cell) (order : list Cell) : Prop :=
  NoDup order ∧ list_to_set order = s.

End Py.

(** ** class Minesweeper *)

Module Minesweeper.

Record t : Type := Game {
  height : Z;
  width : Z;
  mines : gset Cell;
  board : list (list bool);
  mines_found : gset Cell
}.

(** The field with no mines built by the two nested [range] loops. *)
Definition empty_board (h w : Z) : list (list bool) :=
  map (fun _ => map (fun _ => false) (Py.range w)) (Py.range h).

(** [random.randrange(n)]: some [0 <= r < n], here the draw [d] reduced
    into that range; [None] is the [ValueError] raised when [n <= 0]. *)
Definition randrange (n : Z) (d : nat) : option Z :=
  if decide (0 < n) then Some (Z.of_nat d mod n) else None.

(** [self.board[i][j]] *)
Definition board_get (b : list (list bool)) (i j : Z) : option bool :=
  row ← Py.index b i; Py.index row j.

(** [self.board[i][j] = True] *)
Definition board_set (b : list (list bool)) (i j : Z)
  : option (list (list bool)) :=
  row ← Py.index b i;
  row' ← Py.set_index row j true;
  Py.set_index b i row'.

(** [while len(self.mines) != mines: ...]; each iteration consumes one
    pair of draws, for [randrange(height)] and [randrange(width)]. *)
Fixpoint place_mines (draws : list (nat * nat)) (n : Z) (g : t)
  : Py.outcome t :=
  if decide (Py.len (mines g) = n) then Py.Returned g
  else match draws with
       | [] => Py.OutOfFuel
       | (di, dj) :: draws' =>
           match randrange (height g) di with
           | None => Py.Raised Py.ValueError g
           | Some i =>
               match randrange (width g) dj with
               | None => Py.Raised Py.ValueError g
               | Some j =>
                   match board_get (board g) i j with
                   | None => Py.Raised Py.IndexError g
                   | Some true => place_mines draws' n g
                   | Some false =>
                       match board_set (board g) i j with
                       | None => Py.Raised Py.IndexError g
                       | Some b' =>
                           place_mines draws' n
                             (Game (height g) (width g)
                                   ({[(i, j)]} ∪ mines g) b'
                                   (mines_found g))
                       end
                   end
               end
           end
       end.

(** [__init__(height, width, mines)] with the draws of the random
    generator.  [self.mines_found] is assigned after the loop; it is
    given its value from the start here since the loop does not read
    it. *)
Definition init (draws : list (nat * nat)) (h w n : Z) : Py.outcome t :=
  place_mines draws n (Game h w ∅ (empty_board h w) ∅).

Definition is_mine (g : t) (cell : Cell) : option bool :=
  board_get (board g) cell.1 cell.2.

(** One iteration of the loop of [nearby_mines] on [count]. *)
Definition nearby_step (g : t) (cell : Cell) (acc : option Z) (c : Cell)
  : option Z :=
  n ← acc;
  if decide (c = cell) then Some n
  else if bool_decide (0 <= c.1 < height g)
          && bool_decide (0 <= c.2 < width g)
  then b ← board_get (board g) c.1 c.2;
       Some (if b : bool then n + 1 else n)
  else Some n.

Definition around (cell : Cell) : list Cell :=
  i ← Py.range2 (cell.1 - 1) (cell.1 + 2);
  j ← Py.range2 (cell.2 - 1) (cell.2 + 2);
  [(i, j)].

(** [nearby_mines(cell)]; [None] is an [IndexError]. *)
Definition nearby_mines (g : t) (cell : Cell) : option Z :=
  foldl (nearby_step g cell) (Some 0) (around cell).

Definition won (g : t) : bool :=
  bool_decide (mines_found g = mines g).

(** A call of one of the methods of a game: what it returns ([inl] a
    Boolean, [inr] an integer, [None] for an [IndexError]) and the game
    after the call.  None of the three assigns to [self]. *)
Inductive method : Type :=
| IsMine (cell : Cell)
| NearbyMines (cell : Cell)
| Won.

Definition call (m : method) (g : t) : option (bool + Z) * t :=
  match m with
  | IsMine cell => (inl <$> is_mine g cell, g)
  | NearbyMines cell => (inr <$> nearby_mines g cell, g)
  | Won => (Some (inl (won g)), g)
  end.

End Minesweeper.

(** ** class Sentence *)

Module Sentence.

Record t : Type := Sentence { cells : gset Cell; count : Z }.

#[global] Instance eq_dec : EqDecision t.
Proof. solve_decision. Defined.

(** [__init__(cells, count)] applied to a list: [set(cells)]. *)
Definition of_list (cs : list Cell) (n : Z) : t :=
  Sentence (list_to_set cs) n.

(** [__eq__] *)
Definition eqb (s o : t) : bool :=
  bool_decide (cells s = cells o) && bool_decide (count s = count o).

Definition known_mines (s : t) : gset Cell :=
  if decide (Py.len (cells s) = count s) then cells s else ∅.

Definition known_safes (s : t) : gset Cell :=
  if decide (count s = 0) then cells s else ∅.

Definition mark_mine (cell : Cell) (s : t) : t :=
  if decide (cell ∈ cells s)
  then Sentence (cells s ∖ {[cell]}) (count s - 1)
  else s.

Definition mark_safe (cell : Cell) (s : t) : t :=
  if decide (cell ∈ cells s)
  then Sentence (cells s ∖ {[cell]}) (count s)
  else s.

(** A method call on a sentence object: the value it returns, if any,
    and the object after the call.  The two queries return a new set
    ([set(self.cells)] or [set()]) and assign nothing. *)
Inductive method : Type :=
| KnownMines
| KnownSafes
| MarkMine (cell : Cell)
| MarkSafe (cell : Cell).

Definition call (m : method) (s : t) : option (gset Cell) * t :=
  match m with
  | KnownMines => (Some (known_mines s), s)
  | KnownSafes => (Some (known_safes s), s)
  | MarkMine cell => (None, mark_mine cell s)
  | MarkSafe cell => (None, mark_safe cell s)
  end.

End Sentence.

Abbreviation Sentence := Sentence.t.

(** ** class MinesweeperAI *)

Module MinesweeperAI.

Record t : Type := AI {
  height : Z;
  width : Z;
  moves_made : gset Cell;
  mines : gset Cell;
  safes : gset Cell;
  knowledge : list Sentence
}.

(** [__init__(height, width)] *)
Definition init (h w : Z) : t := AI h w ∅ ∅ ∅ [].

Definition mark_mine (cell : Cell) (ai : t) : t :=
  AI (height ai) (width ai) (moves_made ai)
     ({[cell]} ∪ mines ai) (safes ai)
     (map (Sentence.mark_mine cell) (knowledge ai)).

Definition mark_safe (cell : Cell) (ai : t) : t :=
  AI (height ai) (width ai) (moves_made ai)
     (mines ai) ({[cell]} ∪ safes ai)
     (map (Sentence.mark_safe cell) (knowledge ai)).

(** [for c in s: self.mark_safe(c)] over a set [s] that the loop does not
    change (a copy returned by [known_safes]).  Python runs through the set
    in an order of its own; the order makes no difference to the result
    (lemma [mark_safe_all_any_order]). *)
Definition mark_safe_all (s : gset Cell) (ai : t) : t :=
  foldl (fun a c => mark_safe c a) ai (elements s).

Definition mark_mine_all (s : gset Cell) (ai : t) : t :=
  foldl (fun a c => mark_mine c a) ai (elements s).

(** The cells visited by the two nested [range] loops of
    [add_knowledge], in the order they are visited. *)
Definition around (cell : Cell) : list Cell :=
  i ← Py.range2 (cell.1 - 1) (cell.1 + 2);
  j ← Py.range2 (cell.2 - 1) (cell.2 + 2);
  [(i, j)].

(** One iteration of the neighbour loop on the pair
    [(count, adjCells)]. *)
Definition neighbour_step (ai : t) (acc : Z * list Cell) (c : Cell)
  : Z * list Cell :=
  if bool_decide (c.1 >= 0) && bool_decide (c.2 >= 0)
     && bool_decide (c.1 < height ai) && bool_decide (c.2 < width ai)
     && negb (bool_decide (c ∈ safes ai))
  then if decide (c ∈ mines ai) then (acc.1 - 1, acc.2)
       else (acc.1, acc.2 ++ [c])
  else acc.

(** [Sentence(adjCells, count)] after the neighbour loop. *)
Definition new_sentence (ai : t) (cell : Cell) (n : Z) : Sentence :=
  let r := foldl (neighbour_step ai) (n, []) (around cell) in
  Sentence.of_list r.2 r.1.

(** Body of the re-evaluation loop for the sentence at position [i].
    [known_mines] is asked of the sentence as it is after the safes have
    been marked. *)
Definition reevaluate_at (i : nat) (ai : t) : t :=
  match knowledge ai !! i with
  | None => ai
  | Some sentence =>
      let ai1 := mark_safe_all (Sentence.known_safes sentence) ai in
      match knowledge ai1 !! i with
      | None => ai1
      | Some sentence' =>
          mark_mine_all (Sentence.known_mines sentence') ai1
      end
  end.

(** [for sentence in self.knowledge: ...] (first loop), from index [i]. *)
Fixpoint reevaluate (fuel i : nat) (ai : t) : Py.outcome t :=
  match knowledge ai !! i with
  | None => Py.Returned ai
  | Some _ =>
      match fuel with
      | O => Py.OutOfFuel
      | S fuel' => reevaluate fuel' (S i) (reevaluate_at i ai)
      end
  end.

(** State of the pairwise scan: the list [self.knowledge] and the local
    list [newKnowledge]. *)
Definition scan : Type := (list Sentence * list Sentence)%type.

(** [if s.cells == set(): self.knowledge.remove(s)] *)
Definition drop_if_empty (s : Sentence) (k : list Sentence)
  : option (list Sentence) :=
  if decide (Sentence.cells s = ∅) then Py.remove s k else Some k.

(** Body of the inner loop for the pair [(sentence, other)]. *)
Definition resolve_pair (sentence other : Sentence) (st : scan)
  : Py.outcome scan :=
  match drop_if_empty other st.1 with
  | None => Py.Raised Py.ValueError st
  | Some k1 =>
      if bool_decide (Sentence.cells sentence ≠ ∅)
         && bool_decide (Sentence.cells other ≠ ∅)
         && negb (Sentence.eqb sentence other)
      then
        let setA := Sentence.cells sentence in
        let setB := Sentence.cells other in
        let setAC := Sentence.count sentence in
        let setBC := Sentence.count other in
        if bool_decide (Py.len setA > Py.len setB)
           && bool_decide (setB ⊆ setA)
        then match Py.remove sentence k1 with
             | None => Py.Raised Py.ValueError (k1, st.2)
             | Some k2 =>
                 Py.Returned
                   (k2, st.2 ++ [Sentence.Sentence (setA ∖ setB) (setAC - setBC)])
             end
        else if bool_decide (Py.len setB > Py.len setA)
                && bool_decide (setA ⊆ setB)
        then match Py.remove other k1 with
             | None => Py.Raised Py.ValueError (k1, st.2)
             | Some k2 =>
                 Py.Returned
                   (k2, st.2 ++ [Sentence.Sentence (setB ∖ setA) (setBC - setAC)])
             end
        else Py.Returned (k1, st.2)
      else Py.Returned (k1, st.2)
  end.

(** [for otherSentence in self.knowledge: ...], from index [j]. *)
Fixpoint resolve_inner (fuel j : nat) (sentence : Sentence) (st : scan)
  : Py.outcome scan :=
  match st.1 !! j with
  | None => Py.Returned st
  | Some other =>
      match fuel with
      | O => Py.OutOfFuel
      | S fuel' =>
          match resolve_pair sentence other st with
          | Py.Returned st' => resolve_inner fuel' (S j) sentence st'
          | r => r
          end
      end
  end.

(** [for sentence in self.knowledge: ...] (second loop), from index [i]. *)
Fixpoint resolve_outer (fuel i : nat) (st : scan) : Py.outcome scan :=
  match st.1 !! i with
  | None => Py.Returned st
  | Some sentence =>
      match fuel with
      | O => Py.OutOfFuel
      | S fuel' =>
          match drop_if_empty sentence st.1 with
          | None => Py.Raised Py.ValueError st
          | Some k1 =>
              match resolve_inner (length k1) 0 sentence (k1, st.2) with
              | Py.Returned st' => resolve_outer fuel' (S i) st'
              | r => r
              end
          end
      end
  end.

Definition with_knowledge (ai : t) (k : list Sentence) : t :=
  AI (height ai) (width ai) (moves_made ai) (mines ai) (safes ai) k.

(** The state in which the re-evaluation loop starts: the move is
    recorded, the cell marked safe and the new sentence appended. *)
Definition observe (cell : Cell) (n : Z) (ai : t) : t :=
  let ai1 :=
    AI (height ai) (width ai) ({[cell]} ∪ moves_made ai)
       (mines ai) (safes ai) (knowledge ai) in
  let ai2 := mark_safe cell ai1 in
  with_knowledge ai2 (knowledge ai2 ++ [new_sentence ai2 cell n]).

(** The pairwise scan and the final [extend], on the whole state.  When
    [list.remove] raises, [self.knowledge] stays as it is at that point
    and the local [newKnowledge] is lost. *)
Definition resolve (fuel : nat) (ai : t) : Py.outcome t :=
  match resolve_outer fuel 0 (knowledge ai, []) with
  | Py.Returned st => Py.Returned (with_knowledge ai (st.1 ++ st.2))
  | Py.Raised e st => Py.Raised e (with_knowledge ai st.1)
  | Py.OutOfFuel => Py.OutOfFuel
  end.

Definition add_knowledge_fuel (fuel : nat) (cell : Cell) (n : Z) (ai : t)
  : Py.outcome t :=
  match reevaluate fuel 0 (observe cell n ai) with
  | Py.Returned ai3 => resolve fuel ai3
  | r => r
  end.

(** [add_knowledge(cell, count)]: each loop runs at most once per entry
    of the list it starts on, and that list has one entry more than
    [self.knowledge] had on entry. *)
Definition add_knowledge (cell : Cell) (n : Z) (ai : t) : Py.outcome t :=
  add_knowledge_fuel (S (length (knowledge ai))) cell n ai.

(** [make_safe_move()]: [order] is the order in which [for x in
    self.safes] gets the cells of the set ([Py.iterates]); the first of
    them that is not in [self.moves_made] is returned. *)
Definition make_safe_move (order : list Cell) (ai : t) : option Cell :=
  head (filter (fun x => x ∉ moves_made ai) order).

(** [make_random_move()]; [pick] is the draw of [random.choice]. *)
Definition make_random_move (pick : nat) (ai : t) : option Cell :=
  let randSet :=
    i ← Py.range (height ai);
    j ← Py.range (width ai);
    if bool_decide ((i, j) ∉ mines ai) && bool_decide ((i, j) ∉ moves_made ai)
    then [(i, j)] else [] in
  match randSet with
  | [] => None
  | _ => randSet !! (pick mod length randSet)%nat
  end.

(** The driver's loop body repeated: each observation [(cell, count)] is
    handed to [add_knowledge]; the run stops at the first call that does
    not return. *)
Fixpoint feed (obs : list (Cell * Z)) (ai : t) : Py.outcome t :=
  match obs with
  | [] => Py.Returned ai
  | (cell, n) :: obs' =>
      match add_knowledge cell n ai with
      | Py.Returned ai' => feed obs' ai'
      | r => r
      end
  end.

End MinesweeperAI.

(** ** Sequences of calls on one knowledge base *)

Module Calls.

Import MinesweeperAI.

Inductive op : Type :=
| AddKnowledge (cell : Cell) (count : Z)
| MarkMine (cell : Cell)
| MarkSafe (cell : Cell)
| MakeSafeMove (order : list Cell)
| MakeRandomMove (pick : nat).

Definition exec (o : op) (ai : t) : Py.outcome t :=
  match o with
  | AddKnowledge cell n => add_knowledge cell n ai
  | MarkMine cell => Py.Returned (mark_mine cell ai)
  | MarkSafe cell => Py.Returned (mark_safe cell ai)
  | MakeSafeMove order => let _ := make_safe_move order ai in Py.Returned ai
  | MakeRandomMove pick => let _ := make_random_move pick ai in Py.Returned ai
  end.

(** The object after a call: as the call left it, whether it returned
    or raised. *)
Definition left_by (r : Py.outcome t) : option t :=
  match r with
  | Py.Returned ai | Py.Raised _ ai => Some ai
  | Py.OutOfFuel => None
  end.

Fixpoint run (ops : list op) (ai : t) : option t :=
  match ops with
  | [] => Some ai
  | o :: ops' =>
      match left_by (exec o ai) with
      | Some ai' => run ops' ai'
      | None => None
      end
  end.

(** From [ai] to [ai'] nothing was taken out of the three sets, and the
    board size is the same. *)
Definition grows (ai ai' : t) : Prop :=
  height ai' = height ai ∧ width ai' = width ai
  ∧ moves_made ai ⊆ moves_made ai'
  ∧ mines ai ⊆ mines ai'
  ∧ safes ai ⊆ safes ai'.

(** The call does not name a cell that the knowledge base has in the
    other set: [add_knowledge] and [mark_safe] are not called for a cell
    of [mines], [mark_mine] is not called for a cell of [safes]. *)
Definition admissible (o : op) (ai : t) : Prop :=
  match o with
  | AddKnowledge cell _ | MarkSafe cell => cell ∉ mines ai
  | MarkMine cell => cell ∉ safes ai
  | MakeSafeMove _ | MakeRandomMove _ => True
  end.

#[global] Instance admissible_dec o ai : Decision (admissible o ai).
Proof. destruct o; simpl; apply _. Defined.

(** Every call of the sequence is admissible in the state it is made
    in. *)
Fixpoint admissible_run (ops : list op) (ai : t) : Prop :=
  match ops with
  | [] => True
  | o :: ops' =>
      admissible o ai
      ∧ match left_by (exec o ai) with
        | Some ai' => admissible_run ops' ai'
        | None => True
        end
  end.

#[global] Instance admissible_run_dec ops ai : Decision (admissible_run ops ai).
Proof.
  revert ai. induction ops as [|o ops IH]; intros ai; simpl; [apply _|].
  destruct (left_by (exec o ai)); apply _.
Defined.

End Calls.

(** ** A mine layout and what it makes true *)

Module Layout.

Definition in_bounds (h w : Z) (c : Cell) : Prop :=
  0 <= c.1 < h ∧ 0 <= c.2 < w.

(** The number [nearby_mines] reports on a board whose mines are [M]. *)
Definition mines_around (M : gset Cell) (h w : Z) (cell : Cell) : Z :=
  Z.of_nat
    (length (filter (fun c => c ≠ cell ∧ in_bounds h w c ∧ c ∈ M)
                    (Minesweeper.around cell))).

(** The sentence says the truth: [count] of its cells are mines. *)
Definition holds (M : gset Cell) (s : Sentence) : Prop :=
  Sentence.count s = Z.of_nat (size (Sentence.cells s ∩ M)).

(** Everything the knowledge base records is true. *)
Definition sound (M : gset Cell) (ai : MinesweeperAI.t) : Prop :=
  MinesweeperAI.mines ai ⊆ M
  ∧ MinesweeperAI.safes ai ## M
  ∧ Forall (holds M) (MinesweeperAI.knowledge ai).

(** Both lists of the pairwise scan hold true sentences only. *)
Definition scan_holds (M : gset Cell) (st : MinesweeperAI.scan) : Prop :=
  Forall (holds M) st.1 ∧ Forall (holds M) st.2.

(** The call tells the truth about the layout: [add_knowledge] is given
    a cell that is no mine and its number of neighbouring mines,
    [mark_mine] a mine and [mark_safe] a cell that is no mine. *)
Definition truthful (M : gset Cell) (h w : Z) (o : Calls.op) : Prop :=
  match o with
  | Calls.AddKnowledge cell n => (cell ∉ M) ∧ n = mines_around M h w cell
  | Calls.MarkMine cell => cell ∈ M
  | Calls.MarkSafe cell => (cell ∉ M)
  | Calls.MakeSafeMove _ | Calls.MakeRandomMove _ => True
  end.

(** The board and the mine set of a game agree on a [h] by [w] field. *)
Definition board_agrees (g : Minesweeper.t) : Prop :=
  ∀ c, in_bounds (Minesweeper.height g) (Minesweeper.width g) c →
       Minesweeper.is_mine g c = Some (bool_decide (c ∈ Minesweeper.mines g)).

(** What the loop that places the mines keeps true of a game on a [h]
    by [w] field. *)
Definition placed (h w : Z) (g : Minesweeper.t) : Prop :=
  Minesweeper.height g = h ∧ Minesweeper.width g = w
  ∧ (∀ c, c ∈ Minesweeper.mines g → in_bounds h w c)
  ∧ board_agrees g.

(** A sentence whose cells are all decided by its count alone. *)
Definition determined (s : Sentence) : Prop :=
  Sentence.cells s ≠ ∅
  ∧ (Sentence.count s = 0 ∨ Sentence.count s = Py.len (Sentence.cells s)).

#[global] Instance determined_dec s : Decision (determined s).
Proof. unfold determined. apply _. Defined.

(** [a]'s cells are a strict superset of [b]'s. *)
Definition nested (a b : Sentence) : Prop :=
  Sentence.cells b ⊂ Sentence.cells a.

End Layout.

(** ** Boards and games used as examples *)

Module Scenario.

(** Three by three, one mine in the middle. *)
Definition centre_mine : Minesweeper.t :=
  Minesweeper.Game 3 3 {[(1, 1)]}
    [[false; false; false]; [false; true; false]; [false; false; false]] ∅.

(** One row of five cells, one mine in the middle. *)
Definition row_mine : Minesweeper.t :=
  Minesweeper.Game 1 5 {[(0, 2)]} [[false; false; true; false; false]] ∅.

(** Two rows of three cells, one mine in the middle of the first. *)
Definition top_mine : Minesweeper.t :=
  Minesweeper.Game 2 3 {[(0, 1)]}
    [[false; true; false]; [false; false; false]] ∅.

(** What the driver passes to [add_knowledge] for a cell it reveals;
    an [IndexError] of [nearby_mines] is reported as [-1]. *)
Definition reveal (g : Minesweeper.t) (cell : Cell) : Cell * Z :=
  (cell, default (-1) (Minesweeper.nearby_mines g cell)).

(** The knowledge base of a player of [g] who has revealed [cells] in
    turn. *)
Definition after (g : Minesweeper.t) (cells : list Cell)
  : Py.outcome MinesweeperAI.t :=
  MinesweeperAI.feed (map (reveal g) cells)
    (MinesweeperAI.init (Minesweeper.height g) (Minesweeper.width g)).

End Scenario.

(** ** What the knowledge base keeps *)

Module Knowledge.

(** No sentence mentions a cell that is known to be safe or to be a mine. *)
Definition clean (ai : MinesweeperAI.t) : Prop :=
  Forall (λ s, Sentence.cells s
               ## MinesweeperAI.safes ai ∪ MinesweeperAI.mines ai)
         (MinesweeperAI.knowledge ai).

(** The sentence that the pairwise scan builds from [a] and its subset
    [b]. *)
Definition difference (a b : Sentence) : Sentence :=
  Sentence.Sentence (Sentence.cells a ∖ Sentence.cells b)
                    (Sentence.count a - Sentence.count b).


(** The cells [make_random_move] chooses from. *)
Definition eligible (ai : MinesweeperAI.t) (c : Cell) : Prop :=
  Layout.in_bounds (MinesweeperAI.height ai) (MinesweeperAI.width ai) c
  ∧ (c ∉ MinesweeperAI.mines ai) ∧ (c ∉ MinesweeperAI.moves_made ai).

(** The sentence at position [i] has its cells among [C], and every cell
    of [C] it has lost is recorded as safe or as a mine. *)
Definition tracks (C : gset Cell) (i : nat) (ai : MinesweeperAI.t) : Prop :=
  ∃ s, MinesweeperAI.knowledge ai !! i = Some s
       ∧ (Sentence.cells s ⊆ C)
       ∧ C ⊆ Sentence.cells s ∪ MinesweeperAI.safes ai ∪ MinesweeperAI.mines ai.

(** From [st] to [st'] the scan has only taken entries out of the list,
    and has built at most one sentence for each entry it has taken out. *)
Definition shrinks (st st' : MinesweeperAI.scan) : Prop :=
  sublist st'.1 st.1
  ∧ (length st'.1 + length st'.2 ≤ length st.1 + length st.2)%nat
  ∧ ∃ d, st'.2 = st.2 ++ d.

End Knowledge.

(** ** The field of a game *)

Module Field.

(** The board has [h] rows of [w] entries. *)
Definition shaped (h w : Z) (b : list (list bool)) : Prop :=
  length b = Z.to_nat h ∧ Forall (λ row, length row = Z.to_nat w) b.

(** The cells of a [h] by [w] field, row by row. *)
Definition grid (h w : Z) : list Cell :=
  i ← Py.range h; j ← Py.range w; [(i, j)].

End Field.

(** ** Minesweeper.print *)

Module Render.

(** The characters of a string literal. *)
Definition text (s : string) : list ascii := list_ascii_of_string s.

(** The line end that [print] writes after its argument. *)
Definition newline : list ascii := [ascii_of_nat 10].

(** ["--" * self.width + "-"] *)
Definition rule (w : Z) : list ascii :=
  concat (replicate (Z.to_nat w) (text "--")) ++ text "-".

(** One turn of the inner loop of [print], on the text written so far. *)
Definition print_cell (b : list (list bool)) (i : Z)
    (out : Py.outcome (list ascii)) (j : Z) : Py.outcome (list ascii) :=
  match out with
  | Py.Returned t =>
      match Minesweeper.board_get b i j with
      | Some true => Py.Returned (t ++ text "|X")
      | Some false => Py.Returned (t ++ text "| ")
      | None => Py.Raised Py.IndexError t
      end
  | r => r
  end.

(** One turn of the outer loop of [print]. *)
Definition print_row (g : Minesweeper.t)
    (out : Py.outcome (list ascii)) (i : Z) : Py.outcome (list ascii) :=
  match out with
  | Py.Returned t =>
      match foldl (print_cell (Minesweeper.board g) i)
                  (Py.Returned (t ++ rule (Minesweeper.width g) ++ newline))
                  (Py.range (Minesweeper.width g)) with
      | Py.Returned t' => Py.Returned (t' ++ text "|" ++ newline)
      | r => r
      end
  | r => r
  end.

(** [print()]: the text written to the standard output. *)
Definition print (g : Minesweeper.t) : Py.outcome (list ascii) :=
  match foldl (print_row g) (Py.Returned []) (Py.range (Minesweeper.height g))
  with
  | Py.Returned t => Py.Returned (t ++ rule (Minesweeper.width g) ++ newline)
  | r => r
  end.

(** The row [i] of a field with the mines [M]: [|X] for a mine, [| ] for
    any other cell, and a closing bar. *)
Definition row_picture (M : gset Cell) (w i : Z) : list ascii :=
  concat (map (λ j, text (if bool_decide ((i, j) ∈ M) then "|X" else "| "))
              (Py.range w))
  ++ text "|".

(** The picture of a [h] by [w] field with the mines [M]: a rule above
    every row and one below the last. *)
Definition picture (M : gset Cell) (h w : Z) : list ascii :=
  concat (map (λ i, rule w ++ newline ++ row_picture M w i ++ newline)
              (Py.range h))
  ++ rule w ++ newline.

(** The number of [X] in a text. *)
Definition crosses (t : list ascii) : nat :=
  length (filter (λ a, a = "X"%char) t).

End Render.

(** * Properties *)

(** ** Sentences *)

Section SentenceFacts.

Implicit Types (s : Sentence) (c : Cell).

Lemma sentence_mark_mine_in s c :
  c ∈ Sentence.cells s →
  Sentence.mark_mine c s
  = Sentence.Sentence (Sentence.cells s ∖ {[c]}) (Sentence.count s - 1).
Proof. intros Hin. unfold Sentence.mark_mine. by rewrite decide_True. Qed.

Lemma sentence_mark_safe_in s c :
  c ∈ Sentence.cells s →
  Sentence.mark_safe c s
  = Sentence.Sentence (Sentence.cells s ∖ {[c]}) (Sentence.count s).
Proof. intros Hin. unfold Sentence.mark_safe. by rewrite decide_True. Qed.

Lemma sentence_mark_mine_notin s c :
  c ∉ Sentence.cells s → Sentence.mark_mine c s = s.
Proof. intros Hin. unfold Sentence.mark_mine. by rewrite decide_False. Qed.

Lemma sentence_mark_safe_notin s c :
  c ∉ Sentence.cells s → Sentence.mark_safe c s = s.
Proof. intros Hin. unfold Sentence.mark_safe. by rewrite decide_False. Qed.

Lemma sentence_mark_mine_gone s c : c ∉ Sentence.cells (Sentence.mark_mine c s).
Proof.
  unfold Sentence.mark_mine. case_decide; simpl; [set_solver | done].
Qed.

Lemma sentence_mark_safe_gone s c : c ∉ Sentence.cells (Sentence.mark_safe c s).
Proof.
  unfold Sentence.mark_safe. case_decide; simpl; [set_solver | done].
Qed.

Lemma sentence_mark_mine_idem s c :
  Sentence.mark_mine c (Sentence.mark_mine c s) = Sentence.mark_mine c s.
Proof. apply sentence_mark_mine_notin, sentence_mark_mine_gone. Qed.

Lemma sentence_mark_safe_idem s c :
  Sentence.mark_safe c (Sentence.mark_safe c s) = Sentence.mark_safe c s.
Proof. apply sentence_mark_safe_notin, sentence_mark_safe_gone. Qed.

Lemma sentence_mark_mine_cells s c :
  Sentence.cells (Sentence.mark_mine c s) = Sentence.cells s ∖ {[c]}.
Proof.
  unfold Sentence.mark_mine. case_decide; simpl; [done | set_solver].
Qed.

Lemma sentence_mark_safe_cells s c :
  Sentence.cells (Sentence.mark_safe c s) = Sentence.cells s ∖ {[c]}.
Proof.
  unfold Sentence.mark_safe. case_decide; simpl; [done | set_solver].
Qed.

(** [__eq__] is equality of the two fields, which [list.remove] and [!=]
    go through. *)
Lemma sentence_eqb_eq s o : Sentence.eqb s o = true ↔ s = o.
Proof.
  unfold Sentence.eqb. destruct s as [cs n], o as [co m]. simpl. split.
  - intros [H1%bool_decide_eq_true_1 H2%bool_decide_eq_true_1]%andb_prop.
    congruence.
  - intros [= -> ->]. by rewrite !bool_decide_eq_true_2.
Qed.

Lemma sentence_mark_safe_eq s c :
  Sentence.mark_safe c s
  = Sentence.Sentence (Sentence.cells s ∖ {[c]}) (Sentence.count s).
Proof.
  unfold Sentence.mark_safe. case_decide; [done|].
  destruct s as [cs n]; simpl in *. f_equal. set_solver.
Qed.

Lemma sentence_mark_mine_eq s c :
  Sentence.mark_mine c s
  = Sentence.Sentence (Sentence.cells s ∖ {[c]})
      (Sentence.count s - if decide (c ∈ Sentence.cells s) then 1 else 0).
Proof.
  unfold Sentence.mark_mine. case_decide; [done|].
  destruct s as [cs n]; simpl in *. f_equal; [set_solver|lia].
Qed.

Lemma sentence_mark_safe_comm s c1 c2 :
  Sentence.mark_safe c1 (Sentence.mark_safe c2 s)
  = Sentence.mark_safe c2 (Sentence.mark_safe c1 s).
Proof. rewrite !sentence_mark_safe_eq. simpl. f_equal. set_solver. Qed.

Lemma sentence_mark_mine_comm s c1 c2 :
  Sentence.mark_mine c1 (Sentence.mark_mine c2 s)
  = Sentence.mark_mine c2 (Sentence.mark_mine c1 s).
Proof.
  destruct (decide (c1 = c2)) as [->|Hne]; [done|].
  rewrite !sentence_mark_mine_eq. simpl. f_equal; [set_solver|].
  repeat case_decide; try lia; set_solver.
Qed.

End SentenceFacts.

(** ** Marking on the whole knowledge base *)

Section MarkFacts.

Implicit Types (ai : MinesweeperAI.t) (c : Cell).

Lemma ai_mark_mine_idem ai c :
  MinesweeperAI.mark_mine c (MinesweeperAI.mark_mine c ai)
  = MinesweeperAI.mark_mine c ai.
Proof.
  unfold MinesweeperAI.mark_mine; simpl. f_equal.
  - set_solver.
  - rewrite map_map. apply map_ext. intros s. apply sentence_mark_mine_idem.
Qed.

Lemma ai_mark_safe_idem ai c :
  MinesweeperAI.mark_safe c (MinesweeperAI.mark_safe c ai)
  = MinesweeperAI.mark_safe c ai.
Proof.
  unfold MinesweeperAI.mark_safe; simpl. f_equal.
  - set_solver.
  - rewrite map_map. apply map_ext. intros s. apply sentence_mark_safe_idem.
Qed.

(** Marking two cells gives the same knowledge base in either order: the
    order in which a [for] loop runs through a set of cells to mark does
    not matter. *)
Lemma ai_mark_safe_comm ai c1 c2 :
  MinesweeperAI.mark_safe c1 (MinesweeperAI.mark_safe c2 ai)
  = MinesweeperAI.mark_safe c2 (MinesweeperAI.mark_safe c1 ai).
Proof.
  unfold MinesweeperAI.mark_safe; simpl. f_equal.
  - set_solver.
  - rewrite !map_map. apply map_ext. intros s. apply sentence_mark_safe_comm.
Qed.

Lemma ai_mark_mine_comm ai c1 c2 :
  MinesweeperAI.mark_mine c1 (MinesweeperAI.mark_mine c2 ai)
  = MinesweeperAI.mark_mine c2 (MinesweeperAI.mark_mine c1 ai).
Proof.
  unfold MinesweeperAI.mark_mine; simpl. f_equal.
  - set_solver.
  - rewrite !map_map. apply map_ext. intros s. apply sentence_mark_mine_comm.
Qed.

Lemma foldl_mark_safe_Permutation (l1 l2 : list Cell) ai :
  l1 ≡ₚ l2 →
  foldl (λ a c, MinesweeperAI.mark_safe c a) ai l1
  = foldl (λ a c, MinesweeperAI.mark_safe c a) ai l2.
Proof.
  intros Hp. revert ai.
  induction Hp as [|x l1 l2 _ IH|x y l|l1 l2 l3 _ IH1 _ IH2]; intros ai; simpl.
  - done.
  - apply IH.
  - by rewrite ai_mark_safe_comm.
  - by rewrite IH1.
Qed.

Lemma foldl_mark_mine_Permutation (l1 l2 : list Cell) ai :
  l1 ≡ₚ l2 →
  foldl (λ a c, MinesweeperAI.mark_mine c a) ai l1
  = foldl (λ a c, MinesweeperAI.mark_mine c a) ai l2.
Proof.
  intros Hp. revert ai.
  induction Hp as [|x l1 l2 _ IH|x y l|l1 l2 l3 _ IH1 _ IH2]; intros ai; simpl.
  - done.
  - apply IH.
  - by rewrite ai_mark_mine_comm.
  - by rewrite IH1.
Qed.

(** Whatever order the set is run through, with each cell once, the loop
    ends in the state [mark_safe_all] gives. *)
Lemma mark_safe_all_any_order (S : gset Cell) (l : list Cell) ai :
  NoDup l → (∀ c, c ∈ l ↔ c ∈ S) →
  foldl (λ a c, MinesweeperAI.mark_safe c a) ai l
  = MinesweeperAI.mark_safe_all S ai.
Proof.
  intros Hnd Hl. apply foldl_mark_safe_Permutation.
  apply NoDup_Permutation; [done|apply NoDup_elements|].
  intros c. rewrite Hl. by rewrite elem_of_elements.
Qed.

Lemma mark_mine_all_any_order (S : gset Cell) (l : list Cell) ai :
  NoDup l → (∀ c, c ∈ l ↔ c ∈ S) →
  foldl (λ a c, MinesweeperAI.mark_mine c a) ai l
  = MinesweeperAI.mark_mine_all S ai.
Proof.
  intros Hnd Hl. apply foldl_mark_mine_Permutation.
  apply NoDup_Permutation; [done|apply NoDup_elements|].
  intros c. rewrite Hl. by rewrite elem_of_elements.
Qed.

End MarkFacts.

(** ** Python list helpers *)

Section RemoveFacts.

Context `{EqDecision A}.
Implicit Types (x : A) (l : list A).

Lemma remove_length x l l' :
  Py.remove x l = Some l' → length l = S (length l').
Proof.
  revert l'. induction l as [|y l IH]; intros l' Hr; simpl in Hr; [done|].
  case_decide; [by inversion Hr|].
  destruct (Py.remove x l) as [r|] eqn:E; [|done].
  inversion Hr; subst. simpl. f_equal. by apply IH.
Qed.

Lemma remove_is_Some x l : x ∈ l → is_Some (Py.remove x l).
Proof.
  induction l as [|y l IH]; intros Hin; [by apply elem_of_nil in Hin|].
  simpl. case_decide; [eauto|].
  apply elem_of_cons in Hin as [->|Hin]; [done|].
  destruct (IH Hin) as [r ->]. eauto.
Qed.

Lemma remove_None x l : x ∉ l → Py.remove x l = None.
Proof.
  induction l as [|y l IH]; intros Hin; [done|].
  simpl. apply not_elem_of_cons in Hin as [Hne Hin].
  rewrite decide_False by done. by rewrite IH.
Qed.

Lemma remove_sublist x l l' : Py.remove x l = Some l' → sublist l' l.
Proof.
  revert l'. induction l as [|y l IH]; intros l' Hr; simpl in Hr; [done|].
  case_decide.
  - inversion Hr; subst. by apply sublist_cons.
  - destruct (Py.remove x l) as [r|] eqn:E; [|done].
    inversion Hr; subst. apply sublist_skip. by apply IH.
Qed.

End RemoveFacts.

(** ** The loops of [add_knowledge] never run out of fuel *)

Section Termination.

Import MinesweeperAI.
Implicit Types (ai : MinesweeperAI.t) (st : scan) (s : Sentence).

Lemma mark_safe_length c ai :
  length (knowledge (mark_safe c ai)) = length (knowledge ai).
Proof. simpl. apply length_map. Qed.

Lemma mark_mine_length c ai :
  length (knowledge (mark_mine c ai)) = length (knowledge ai).
Proof. simpl. apply length_map. Qed.

Lemma mark_safe_all_length S ai :
  length (knowledge (mark_safe_all S ai)) = length (knowledge ai).
Proof.
  unfold mark_safe_all. revert ai.
  induction (elements S) as [|c l IH]; intros ai; simpl; [done|].
  by rewrite IH, mark_safe_length.
Qed.

Lemma mark_mine_all_length S ai :
  length (knowledge (mark_mine_all S ai)) = length (knowledge ai).
Proof.
  unfold mark_mine_all. revert ai.
  induction (elements S) as [|c l IH]; intros ai; simpl; [done|].
  by rewrite IH, mark_mine_length.
Qed.

Lemma reevaluate_at_length i ai :
  length (knowledge (reevaluate_at i ai)) = length (knowledge ai).
Proof.
  unfold reevaluate_at. destruct (knowledge ai !! i) as [s|]; [|done].
  destruct (knowledge (mark_safe_all _ ai) !! i) as [s'|].
  - by rewrite mark_mine_all_length, mark_safe_all_length.
  - by rewrite mark_safe_all_length.
Qed.

(** The first loop returns, and the list has the length it had. *)
Lemma reevaluate_returns fuel i ai :
  (length (knowledge ai) ≤ fuel + i)%nat →
  ∃ ai', reevaluate fuel i ai = Py.Returned ai'
         ∧ length (knowledge ai') = length (knowledge ai).
Proof.
  revert i ai. induction fuel as [|fuel IH]; intros i ai Hlen; simpl.
  - rewrite lookup_ge_None_2 by lia. eauto.
  - destruct (knowledge ai !! i) as [s|]; [|eauto].
    destruct (IH (S i) (reevaluate_at i ai)) as (ai' & -> & Hl).
    { rewrite reevaluate_at_length. lia. }
    exists ai'. split; [done|]. by rewrite Hl, reevaluate_at_length.
Qed.

Lemma drop_if_empty_length s k k' :
  drop_if_empty s k = Some k' → (length k' ≤ length k)%nat.
Proof.
  unfold drop_if_empty. case_decide.
  - intros Hr%remove_length. lia.
  - intros [= ->]. lia.
Qed.

Lemma drop_if_empty_in s k : s ∈ k → is_Some (drop_if_empty s k).
Proof.
  intros Hin. unfold drop_if_empty. case_decide; [|eauto].
  by apply remove_is_Some.
Qed.

Lemma resolve_pair_length s o st st' :
  resolve_pair s o st = Py.Returned st' →
  (length st'.1 ≤ length st.1)%nat.
Proof.
  unfold resolve_pair.
  destruct (drop_if_empty o st.1) as [k1|] eqn:Hd; [|done].
  apply drop_if_empty_length in Hd.
  repeat (case_match; try done); intros [= <-]; simpl;
    repeat match goal with
           | H : Py.remove _ _ = Some _ |- _ => apply remove_length in H
           end; lia.
Qed.

Lemma resolve_pair_not_out s o st : resolve_pair s o st ≠ Py.OutOfFuel.
Proof. unfold resolve_pair. repeat (case_match; try done). Qed.

Lemma resolve_inner_total fuel j s st :
  (length st.1 ≤ fuel + j)%nat →
  (∃ st', resolve_inner fuel j s st = Py.Returned st'
          ∧ (length st'.1 ≤ length st.1)%nat)
  ∨ (∃ e st', resolve_inner fuel j s st = Py.Raised e st').
Proof.
  revert j st. induction fuel as [|fuel IH]; intros j st Hlen; simpl.
  - rewrite lookup_ge_None_2 by lia. left. eauto.
  - destruct (st.1 !! j) as [o|]; [|left; eauto].
    destruct (resolve_pair s o st) as [st1|e st1|] eqn:Hp.
    + pose proof (resolve_pair_length _ _ _ _ Hp) as Hl.
      destruct (IH (S j) st1) as [(st' & -> & Hl')|(e & st' & ->)];
        [lia| |]; [left|right]; eauto with lia.
    + right. eauto.
    + by apply resolve_pair_not_out in Hp.
Qed.

Lemma resolve_outer_total fuel i st :
  (length st.1 ≤ fuel + i)%nat →
  (∃ st', resolve_outer fuel i st = Py.Returned st')
  ∨ (∃ e st', resolve_outer fuel i st = Py.Raised e st').
Proof.
  revert i st. induction fuel as [|fuel IH]; intros i st Hlen; simpl.
  - rewrite lookup_ge_None_2 by lia. left. eauto.
  - destruct (st.1 !! i) as [s|]; [|left; eauto].
    destruct (drop_if_empty s st.1) as [k1|] eqn:Hd; [|right; eauto].
    apply drop_if_empty_length in Hd.
    destruct (resolve_inner_total (length k1) 0 s (k1, st.2))
      as [(st' & -> & Hl')|(e & st' & ->)]; simpl in *; [lia| |].
    + apply IH. lia.
    + right. eauto.
Qed.

Lemma observe_length cell n ai :
  length (knowledge (observe cell n ai)) = S (length (knowledge ai)).
Proof.
  unfold observe. simpl. rewrite length_app, length_map. simpl. lia.
Qed.

(** Every call of [add_knowledge] stops: it returns or it raises. *)
Lemma add_knowledge_stops cell n ai :
  (∃ ai', add_knowledge cell n ai = Py.Returned ai')
  ∨ (∃ e ai', add_knowledge cell n ai = Py.Raised e ai').
Proof.
  unfold add_knowledge, add_knowledge_fuel.
  destruct (reevaluate_returns (S (length (knowledge ai))) 0
              (observe cell n ai)) as (ai3 & -> & Hl).
  { rewrite observe_length. lia. }
  rewrite observe_length in Hl. unfold resolve.
  destruct (resolve_outer_total (S (length (knowledge ai))) 0
              (knowledge ai3, [])) as [(st' & ->)|(e & st' & ->)];
    simpl; [lia| |]; [left|right]; eauto.
Qed.

End Termination.

(** ** Soundness of the inference in a mine layout *)

Section Soundness.

Import MinesweeperAI Layout.

Variable M : gset Cell.
Implicit Types (ai : MinesweeperAI.t) (s : Sentence) (c : Cell).

Lemma holds_mark_safe s c : c ∉ M → holds M s → holds M (Sentence.mark_safe c s).
Proof.
  unfold holds, Sentence.mark_safe. intros Hc Hs.
  case_decide; simpl; [|done].
  rewrite Hs. do 2 f_equal. set_solver.
Qed.

Lemma holds_mark_mine s c : c ∈ M → holds M s → holds M (Sentence.mark_mine c s).
Proof.
  unfold holds, Sentence.mark_mine. intros Hc Hs.
  case_decide as Hin; simpl; [|done].
  rewrite Hs.
  replace (Sentence.cells s ∩ M)
    with ({[c]} ∪ (Sentence.cells s ∖ {[c]}) ∩ M) at 1.
  - rewrite size_union by set_solver. rewrite size_singleton. lia.
  - apply set_eq. intros x. destruct (decide (x = c)); set_solver.
Qed.

Lemma known_safes_sound s : holds M s → Sentence.known_safes s ## M.
Proof.
  unfold holds, Sentence.known_safes. intros Hs.
  case_decide as H0; [|set_solver].
  rewrite H0 in Hs.
  assert (size (Sentence.cells s ∩ M) = 0%nat) as Hz%size_empty_inv by lia.
  set_solver.
Qed.

Lemma known_mines_sound s : holds M s → Sentence.known_mines s ⊆ M.
Proof.
  unfold holds, Sentence.known_mines, Py.len. intros Hs.
  case_decide as H0; [|set_solver].
  assert (Sentence.cells s ∩ M = Sentence.cells s) as Heq.
  { apply set_subseteq_size_eq; [set_solver|lia]. }
  set_solver.
Qed.

Lemma sound_mark_safe c ai : c ∉ M → sound M ai → sound M (mark_safe c ai).
Proof.
  intros Hc (Hm & Hs & Hk). repeat split; simpl; [done|set_solver|].
  apply Forall_fmap. eapply Forall_impl; [exact Hk|].
  intros s Hh. by apply holds_mark_safe.
Qed.

Lemma sound_mark_mine c ai : c ∈ M → sound M ai → sound M (mark_mine c ai).
Proof.
  intros Hc (Hm & Hs & Hk). repeat split; simpl; [set_solver|done|].
  apply Forall_fmap. eapply Forall_impl; [exact Hk|].
  intros s Hh. by apply holds_mark_mine.
Qed.

Lemma sound_mark_safe_all S ai :
  S ## M → sound M ai → sound M (mark_safe_all S ai).
Proof.
  intros HS. unfold mark_safe_all.
  assert (Forall (λ c, c ∉ M) (elements S)) as Hall.
  { apply Forall_forall. intros c Hc%elem_of_elements. set_solver. }
  revert ai. induction Hall as [|c l Hc _ IH]; intros ai Hai; simpl; [done|].
  by apply IH, sound_mark_safe.
Qed.

Lemma sound_mark_mine_all S ai :
  S ⊆ M → sound M ai → sound M (mark_mine_all S ai).
Proof.
  intros HS. unfold mark_mine_all.
  assert (Forall (λ c, c ∈ M) (elements S)) as Hall.
  { apply Forall_forall. intros c Hc%elem_of_elements. set_solver. }
  revert ai. induction Hall as [|c l Hc _ IH]; intros ai Hai; simpl; [done|].
  by apply IH, sound_mark_mine.
Qed.

Lemma sound_lookup ai i s :
  sound M ai → knowledge ai !! i = Some s → holds M s.
Proof.
  intros (_ & _ & Hk) Hi. eapply Forall_lookup_1; eauto.
Qed.

Lemma sound_reevaluate_at i ai : sound M ai → sound M (reevaluate_at i ai).
Proof.
  intros Hai. unfold reevaluate_at.
  destruct (knowledge ai !! i) as [s|] eqn:Hi; [|done].
  assert (sound M (mark_safe_all (Sentence.known_safes s) ai)) as Hai1.
  { apply sound_mark_safe_all; [|done].
    eapply known_safes_sound, sound_lookup; eauto. }
  destruct (knowledge (mark_safe_all _ ai) !! i) as [s'|] eqn:Hi'; [|done].
  apply sound_mark_mine_all; [|done].
  eapply known_mines_sound, sound_lookup; eauto.
Qed.

Lemma sound_reevaluate fuel i ai ai' :
  sound M ai → reevaluate fuel i ai = Py.Returned ai' → sound M ai'.
Proof.
  revert i ai. induction fuel as [|fuel IH]; intros i ai Hai; simpl.
  - destruct (knowledge ai !! i); [done|]. by intros [= <-].
  - destruct (knowledge ai !! i); [|by intros [= <-]].
    apply IH. by apply sound_reevaluate_at.
Qed.

End Soundness.

(** ** The sentence built from an observation *)

Section NewSentence.

Import MinesweeperAI Layout.

Implicit Types (ai : MinesweeperAI.t) (c : Cell).

(** The neighbour loop as two filters of the cells it visits. *)
Lemma neighbour_fold ai l n acc :
  foldl (neighbour_step ai) (n, acc) l
  = (n - Z.of_nat (length (filter
           (λ c, in_bounds (height ai) (width ai) c
                 ∧ (c ∉ safes ai) ∧ c ∈ mines ai) l)),
     acc ++ filter
           (λ c, in_bounds (height ai) (width ai) c
                 ∧ (c ∉ safes ai) ∧ c ∉ mines ai) l).
Proof.
  revert n acc. induction l as [|c l IH]; intros n acc; simpl.
  { f_equal; [lia|by rewrite app_nil_r]. }
  unfold neighbour_step at 2.
  destruct (decide (in_bounds (height ai) (width ai) c ∧ c ∉ safes ai))
    as [[Hb Hs]|Hn].
  - destruct Hb as [[? ?] [? ?]].
    rewrite !bool_decide_eq_true_2 by (done || lia).
    rewrite (bool_decide_eq_false_2 (c ∈ safes ai)) by done. simpl.
    destruct (decide (c ∈ mines ai)) as [Hm|Hm]; simpl; rewrite IH.
    + rewrite (filter_cons_True _ c) by (unfold in_bounds; auto with lia).
      rewrite (filter_cons_False _ c) by tauto.
      f_equal. simpl. lia.
    + rewrite (filter_cons_False _ c) by tauto.
      rewrite (filter_cons_True _ c) by (unfold in_bounds; auto with lia).
      by rewrite <- app_assoc.
  - rewrite !(filter_cons_False _ c) by tauto.
    assert (bool_decide (c.1 >= 0) && bool_decide (c.2 >= 0)
            && bool_decide (c.1 < height ai) && bool_decide (c.2 < width ai)
            && negb (bool_decide (c ∈ safes ai)) = false) as ->; [|apply IH].
    apply not_true_is_false. intros Ht.
    repeat (apply andb_prop in Ht as [Ht ?]).
    repeat match goal with
           | H : bool_decide _ = true |- _ => apply bool_decide_eq_true_1 in H
           | H : negb _ = true |- _ =>
               apply negb_true_iff, bool_decide_eq_false_1 in H
           end.
    apply Hn. unfold in_bounds. auto with lia.
Qed.

Lemma new_sentence_cells ai cell n :
  Sentence.cells (new_sentence ai cell n)
  = list_to_set (filter
      (λ c, in_bounds (height ai) (width ai) c
            ∧ (c ∉ safes ai) ∧ c ∉ mines ai) (around cell)).
Proof. unfold new_sentence. by rewrite neighbour_fold. Qed.

Lemma new_sentence_count ai cell n :
  Sentence.count (new_sentence ai cell n)
  = n - Z.of_nat (length (filter
      (λ c, in_bounds (height ai) (width ai) c
            ∧ (c ∉ safes ai) ∧ c ∈ mines ai) (around cell))).
Proof. unfold new_sentence. by rewrite neighbour_fold. Qed.

(** No known safe cell, and no known mine, enters the new sentence. *)
Lemma new_sentence_unknown ai cell n c :
  c ∈ Sentence.cells (new_sentence ai cell n) →
  c ∈ around cell ∧ in_bounds (height ai) (width ai) c
  ∧ (c ∉ safes ai) ∧ c ∉ mines ai.
Proof.
  rewrite new_sentence_cells, elem_of_list_to_set, list_elem_of_filter.
  tauto.
Qed.

Lemma range2_three lo : Py.range2 (lo - 1) (lo + 2) = [lo - 1; lo; lo + 1].
Proof.
  unfold Py.range2. replace (lo + 2 - (lo - 1)) with 3 by lia.
  simpl. f_equal; [lia|]. f_equal; [lia|]. f_equal. lia.
Qed.

Lemma around_cells i j :
  around (i, j)
  = [(i - 1, j - 1); (i - 1, j); (i - 1, j + 1);
     (i, j - 1); (i, j); (i, j + 1);
     (i + 1, j - 1); (i + 1, j); (i + 1, j + 1)].
Proof. unfold around. simpl. by rewrite !range2_three. Qed.

Lemma around_self cell : cell ∈ around cell.
Proof. destruct cell as [i j]. rewrite around_cells. set_solver. Qed.

Lemma around_NoDup cell : NoDup (around cell).
Proof.
  destruct cell as [i j]. rewrite around_cells.
  repeat (apply NoDup_cons; split;
          [rewrite ?elem_of_cons, elem_of_nil;
           intros Hx; repeat (destruct Hx as [Hx|Hx]); try done;
           inversion Hx; lia|]).
  apply NoDup_nil_2.
Qed.

End NewSentence.

Section Counting.

Context {A : Type}.
Context (P Q R : A → Prop) `{!∀ x, Decision (P x)}
        `{!∀ x, Decision (Q x)} `{!∀ x, Decision (R x)}.

(** Counting the entries that satisfy [P] by two exclusive cases. *)
Lemma filter_length_split (l : list A) :
  (∀ x, x ∈ l → (P x ↔ Q x ∨ R x) ∧ ¬ (Q x ∧ R x)) →
  length (filter P l) = (length (filter Q l) + length (filter R l))%nat.
Proof.
  induction l as [|x l IH]; intros Hl; [done|].
  assert (∀ y, y ∈ l → (P y ↔ Q y ∨ R y) ∧ ¬ (Q y ∧ R y)) as Hl'.
  { intros y Hy. apply Hl. by right. }
  destruct (Hl x) as [Hx Hex]; [by left|].
  rewrite !filter_cons.
  destruct (decide (P x)), (decide (Q x)), (decide (R x));
    simpl; rewrite (IH Hl'); tauto || lia.
Qed.

End Counting.

Section ObserveSound.

Import MinesweeperAI Layout.

Variable M : gset Cell.
Implicit Types (ai : MinesweeperAI.t) (c : Cell).

Lemma size_list_to_set_inter (l : list Cell) :
  NoDup l →
  size ((list_to_set l : gset Cell) ∩ M) = length (filter (λ c, c ∈ M) l).
Proof.
  intros Hnd.
  replace ((list_to_set l : gset Cell) ∩ M)
    with (list_to_set (filter (λ c, c ∈ M) l) : gset Cell).
  - apply size_list_to_set. by apply NoDup_filter.
  - apply set_eq. intros x.
    rewrite elem_of_intersection, !elem_of_list_to_set, list_elem_of_filter.
    tauto.
Qed.

(** Given the true number of neighbouring mines of a cell that is no
    mine, the new sentence is true. *)
Lemma new_sentence_holds ai cell :
  mines ai ⊆ M → safes ai ## M → cell ∉ M →
  holds M (new_sentence ai cell
             (mines_around M (height ai) (width ai) cell)).
Proof.
  intros Hm Hs Hc. unfold holds.
  rewrite new_sentence_count, new_sentence_cells.
  rewrite size_list_to_set_inter by apply NoDup_filter, around_NoDup.
  rewrite list_filter_filter. unfold mines_around.
  change (Minesweeper.around cell) with (around cell).
  rewrite (filter_length_split _
             (λ c, in_bounds (height ai) (width ai) c
                   ∧ (c ∉ safes ai) ∧ c ∈ mines ai)
             (λ c, c ∈ M ∧ in_bounds (height ai) (width ai) c
                   ∧ (c ∉ safes ai) ∧ c ∉ mines ai)).
  - lia.
  - intros x _. split; [|tauto].
    destruct (decide (x ∈ mines ai)); set_solver.
Qed.

Lemma sound_observe ai cell :
  sound M ai → cell ∉ M →
  sound M (observe cell (mines_around M (height ai) (width ai) cell) ai).
Proof.
  intros (Hm & Hs & Hk) Hc. unfold observe.
  set (ai1 := AI _ _ _ _ _ _).
  assert (sound M (mark_safe cell ai1)) as (Hm2 & Hs2 & Hk2).
  { apply sound_mark_safe; [done|]. by repeat split. }
  repeat split; [done|done|]. simpl.
  apply Forall_app. split; [exact Hk2|].
  apply Forall_singleton.
  apply (new_sentence_holds (mark_safe cell ai1)); done.
Qed.

End ObserveSound.

Section ResolveSound.

Import MinesweeperAI Layout.

Variable M : gset Cell.
Implicit Types (st : scan) (s o : Sentence).

Lemma holds_difference s o :
  holds M s → holds M o → Sentence.cells o ⊆ Sentence.cells s →
  holds M (Sentence.Sentence (Sentence.cells s ∖ Sentence.cells o)
                             (Sentence.count s - Sentence.count o)).
Proof.
  unfold holds. simpl. intros -> -> Hsub.
  replace ((Sentence.cells s ∖ Sentence.cells o) ∩ M)
    with ((Sentence.cells s ∩ M) ∖ (Sentence.cells o ∩ M)) by set_solver.
  assert (Sentence.cells o ∩ M ⊆ Sentence.cells s ∩ M) as Hsub' by set_solver.
  pose proof (size_difference _ _ Hsub') as ->.
  apply subseteq_size in Hsub'. lia.
Qed.

Lemma remove_holds s (k k' : list Sentence) :
  Forall (holds M) k → Py.remove s k = Some k' → Forall (holds M) k'.
Proof.
  intros Hk Hr%remove_sublist%sublist_subseteq.
  rewrite Forall_forall in Hk |- *. intros x Hx. apply Hk, Hr, Hx.
Qed.

Lemma drop_if_empty_holds s (k k' : list Sentence) :
  Forall (holds M) k → drop_if_empty s k = Some k' → Forall (holds M) k'.
Proof.
  unfold drop_if_empty. case_decide; [apply remove_holds|].
  by intros ? [= <-].
Qed.

Lemma resolve_pair_holds s o st st' :
  scan_holds M st → holds M s → holds M o →
  Py.leaves (resolve_pair s o st) st' → scan_holds M st'.
Proof.
  intros [Hk Hn] Hs Ho. unfold resolve_pair, Py.leaves.
  destruct (drop_if_empty o st.1) as [k1|] eqn:Hd.
  2:{ intros [[=]|[e [= _ <-]]]. by split. }
  pose proof (drop_if_empty_holds _ _ _ Hk Hd) as Hk1.
  repeat case_match;
    (intros [[= <-]|[e [= _ <-]]] || intros [[=]|[e [=]]]);
    split; simpl; try done;
    repeat match goal with
           | H : Py.remove _ _ = Some _ |- Forall _ _ =>
               apply (remove_holds _ _ _ Hk1 H)
           | H : _ && _ = true |- _ => apply andb_prop in H as [? ?]
           | H : bool_decide _ = true |- _ => apply bool_decide_eq_true_1 in H
           end;
    apply Forall_app; (split; [done|]); apply Forall_singleton;
    by apply holds_difference.
Qed.

Lemma resolve_inner_holds fuel j s st st' :
  scan_holds M st → holds M s →
  Py.leaves (resolve_inner fuel j s st) st' → scan_holds M st'.
Proof.
  revert j st. induction fuel as [|fuel IH]; intros j st Hst Hs; simpl.
  - destruct (st.1 !! j); intros [[=]|[e [=]]]; by subst.
  - destruct (st.1 !! j) as [o|] eqn:Hj.
    2:{ intros [[=]|[e [=]]]; by subst. }
    assert (holds M o) as Ho.
    { destruct Hst as [Hk _]. eapply Forall_lookup_1; eauto. }
    destruct (resolve_pair s o st) as [st1|e1 st1|] eqn:Hp.
    + apply IH; [|done].
      apply (resolve_pair_holds s o st st1 Hst Hs Ho). rewrite Hp. by left.
    + intros [[=]|[e [= _ <-]]].
      apply (resolve_pair_holds s o st st1 Hst Hs Ho). rewrite Hp.
      right. eauto.
    + intros [[=]|[e [=]]].
Qed.

Lemma resolve_outer_holds fuel i st st' :
  scan_holds M st →
  Py.leaves (resolve_outer fuel i st) st' → scan_holds M st'.
Proof.
  revert i st. induction fuel as [|fuel IH]; intros i st Hst; simpl.
  - destruct (st.1 !! i); intros [[=]|[e [=]]]; by subst.
  - destruct (st.1 !! i) as [s|] eqn:Hi.
    2:{ intros [[=]|[e [=]]]; by subst. }
    assert (holds M s) as Hs.
    { destruct Hst as [Hk _]. eapply Forall_lookup_1; eauto. }
    destruct (drop_if_empty s st.1) as [k1|] eqn:Hd.
    2:{ intros [[=]|[e [= _ <-]]]. done. }
    assert (scan_holds M (k1, st.2)) as Hst1.
    { destruct Hst as [Hk Hn]. split; [|done].
      exact (drop_if_empty_holds s st.1 k1 Hk Hd). }
    destruct (resolve_inner (length k1) 0 s (k1, st.2))
      as [st1|e1 st1|] eqn:Hin.
    + apply IH.
      apply (resolve_inner_holds (length k1) 0 s (k1, st.2) st1 Hst1 Hs).
      rewrite Hin. by left.
    + intros [[=]|[e [= _ <-]]].
      apply (resolve_inner_holds (length k1) 0 s (k1, st.2) st1 Hst1 Hs).
      rewrite Hin. right. eauto.
    + intros [[=]|[e [=]]].
Qed.

Lemma sound_resolve fuel ai ai' :
  sound M ai → Py.leaves (resolve fuel ai) ai' → sound M ai'.
Proof.
  intros (Hm & Hs & Hk). unfold resolve.
  destruct (resolve_outer fuel 0 (knowledge ai, [])) as [st|e st|] eqn:Ho.
  - intros [[= <-]|[e [=]]].
    destruct (resolve_outer_holds fuel 0 (knowledge ai, []) st) as [H1 H2].
    { by split. }
    { rewrite Ho. by left. }
    repeat split; simpl; [done|done|]. by apply Forall_app.
  - intros [[=]|[e' [= _ <-]]].
    destruct (resolve_outer_holds fuel 0 (knowledge ai, []) st) as [H1 H2].
    { by split. }
    { rewrite Ho. right. eauto. }
    by repeat split.
  - intros [[=]|[e [=]]].
Qed.

(** A truthful observation keeps the knowledge base sound, also when
    [add_knowledge] raises. *)
Lemma sound_add_knowledge ai ai' cell :
  sound M ai → cell ∉ M →
  Py.leaves
    (add_knowledge cell (mines_around M (height ai) (width ai) cell) ai) ai' →
  sound M ai'.
Proof.
  intros Hai Hc. unfold add_knowledge, add_knowledge_fuel.
  destruct (reevaluate _ 0 _) as [ai3|e ai3|] eqn:Hre.
  - apply sound_resolve. eapply sound_reevaluate; [|exact Hre].
    by apply sound_observe.
  - destruct (reevaluate_returns (S (length (knowledge ai))) 0
                (observe cell
                   (mines_around M (height ai) (width ai) cell) ai))
      as (ai4 & Heq & _).
    { rewrite observe_length. lia. }
    congruence.
  - intros [[=]|[e [=]]].
Qed.

End ResolveSound.

(** ** The sets of a knowledge base only grow *)

Section Growth.

Import MinesweeperAI Calls.
Implicit Types (ai : MinesweeperAI.t).

Lemma grows_refl ai : grows ai ai.
Proof. by repeat split. Qed.

Lemma grows_trans ai1 ai2 ai3 : grows ai1 ai2 → grows ai2 ai3 → grows ai1 ai3.
Proof.
  intros (? & ? & ? & ? & ?) (? & ? & ? & ? & ?).
  repeat split; try congruence; set_solver.
Qed.

Lemma grows_mark_safe c ai : grows ai (mark_safe c ai).
Proof. repeat split; simpl; set_solver. Qed.

Lemma grows_mark_mine c ai : grows ai (mark_mine c ai).
Proof. repeat split; simpl; set_solver. Qed.

Lemma grows_mark_safe_all S ai : grows ai (mark_safe_all S ai).
Proof.
  unfold mark_safe_all. revert ai.
  induction (elements S) as [|c l IH]; intros ai; simpl; [apply grows_refl|].
  eapply grows_trans; [apply (grows_mark_safe c)|apply IH].
Qed.

Lemma grows_mark_mine_all S ai : grows ai (mark_mine_all S ai).
Proof.
  unfold mark_mine_all. revert ai.
  induction (elements S) as [|c l IH]; intros ai; simpl; [apply grows_refl|].
  eapply grows_trans; [apply (grows_mark_mine c)|apply IH].
Qed.

Lemma grows_reevaluate_at i ai : grows ai (reevaluate_at i ai).
Proof.
  unfold reevaluate_at. destruct (knowledge ai !! i); [|apply grows_refl].
  destruct (knowledge (mark_safe_all _ ai) !! i).
  - eapply grows_trans; [apply grows_mark_safe_all|apply grows_mark_mine_all].
  - apply grows_mark_safe_all.
Qed.

Lemma grows_reevaluate fuel i ai ai' :
  reevaluate fuel i ai = Py.Returned ai' → grows ai ai'.
Proof.
  revert i ai. induction fuel as [|fuel IH]; intros i ai; simpl.
  - destruct (knowledge ai !! i); [done|].
    intros [= <-]. apply grows_refl.
  - destruct (knowledge ai !! i); [|intros [= <-]; apply grows_refl].
    intros Hr%IH. eapply grows_trans; [apply grows_reevaluate_at|done].
Qed.

Lemma grows_observe cell n ai : grows ai (observe cell n ai).
Proof. repeat split; simpl; set_solver. Qed.

Lemma grows_resolve fuel ai ai' :
  Py.leaves (resolve fuel ai) ai' → grows ai ai'.
Proof.
  unfold resolve.
  destruct (resolve_outer fuel 0 (knowledge ai, [])) as [st|e st|];
    intros [[=]|[e' [=]]]; subst; by repeat split.
Qed.

Lemma grows_add_knowledge cell n ai ai' :
  Py.leaves (add_knowledge cell n ai) ai' → grows ai ai'.
Proof.
  unfold add_knowledge, add_knowledge_fuel.
  destruct (reevaluate _ 0 _) as [ai3|e ai3|] eqn:Hre.
  - intros Hres%grows_resolve. apply grows_reevaluate in Hre.
    eapply grows_trans; [apply grows_observe|].
    eapply grows_trans; eauto.
  - destruct (reevaluate_returns (S (length (knowledge ai))) 0
                (observe cell n ai)) as (ai4 & Heq & _).
    { rewrite observe_length. lia. }
    congruence.
  - intros [[=]|[e [=]]].
Qed.

Lemma left_by_leaves (r : Py.outcome MinesweeperAI.t) ai :
  left_by r = Some ai ↔ Py.leaves r ai.
Proof.
  unfold Py.leaves. destruct r; simpl; split;
    try (intros [= <-]; eauto); try (intros [[=]|[? [=]]]; by subst).
Qed.

Lemma exec_stops o ai : is_Some (left_by (exec o ai)).
Proof.
  destruct o; simpl; eauto.
  destruct (add_knowledge_stops cell count ai) as [[ai' ->]|(e & ai' & ->)];
    simpl; eauto.
Qed.

Lemma grows_exec o ai ai' : left_by (exec o ai) = Some ai' → grows ai ai'.
Proof.
  rewrite left_by_leaves. destruct o; simpl;
    try (intros [[= <-]|[? [=]]]).
  - apply grows_add_knowledge.
  - apply grows_mark_mine.
  - apply grows_mark_safe.
  - apply grows_refl.
  - apply grows_refl.
Qed.

(** Every sequence of calls runs to its end, and nothing is lost on the
    way. *)
Lemma run_grows ops ai : ∃ ai', run ops ai = Some ai' ∧ grows ai ai'.
Proof.
  revert ai. induction ops as [|o ops IH]; intros ai; simpl.
  - eexists. split; [done|apply grows_refl].
  - destruct (exec_stops o ai) as [ai1 H1]. rewrite H1.
    destruct (IH ai1) as (ai' & Hrun & Hg).
    exists ai'. split; [done|].
    eapply grows_trans; [by apply (grows_exec o)|done].
Qed.

Lemma run_app ops1 ops2 ai :
  run (ops1 ++ ops2) ai = run ops1 ai ≫= run ops2.
Proof.
  revert ai. induction ops1 as [|o ops1 IH]; intros ai; simpl; [done|].
  destruct (left_by (exec o ai)); simpl; [apply IH|done].
Qed.

(** The state after the first [k] calls lies between the first and the
    last state. *)
Lemma run_take_grows ops k ai :
  ∃ ai_k ai', run (take k ops) ai = Some ai_k ∧ run ops ai = Some ai'
              ∧ grows ai ai_k ∧ grows ai_k ai'.
Proof.
  destruct (run_grows (take k ops) ai) as (ai_k & Hk & Hg1).
  destruct (run_grows (drop k ops) ai_k) as (ai' & Hd & Hg2).
  exists ai_k, ai'. repeat split; try done; try apply Hg1; try apply Hg2.
  rewrite <- (take_drop k ops) at 1. rewrite run_app, Hk. done.
Qed.

End Growth.

(** ** Truthful calls keep the knowledge base sound *)

Section TruthfulRuns.

Import MinesweeperAI Calls Layout.

Variables (M : gset Cell) (h w : Z).

Lemma sound_init : sound M (init h w).
Proof. repeat split; simpl; [set_solver|set_solver|constructor]. Qed.

Lemma sound_exec o ai ai' :
  height ai = h → width ai = w →
  truthful M h w o → sound M ai →
  left_by (exec o ai) = Some ai' → sound M ai'.
Proof.
  intros Hh Hw Ho Hai. rewrite left_by_leaves.
  destruct o; simpl in *.
  - destruct Ho as [Hc ->]. rewrite <- Hh, <- Hw.
    by apply sound_add_knowledge.
  - intros [[= <-]|[? [=]]]. by apply sound_mark_mine.
  - intros [[= <-]|[? [=]]]. by apply sound_mark_safe.
  - by intros [[= <-]|[? [=]]].
  - by intros [[= <-]|[? [=]]].
Qed.

Lemma sound_run ops ai ai' :
  height ai = h → width ai = w →
  Forall (truthful M h w) ops → sound M ai →
  run ops ai = Some ai' → sound M ai'.
Proof.
  revert ai. induction ops as [|o ops IH]; intros ai Hh Hw Hops Hai; simpl.
  - by intros [= <-].
  - apply Forall_cons in Hops as [Ho Hops].
    destruct (left_by (exec o ai)) as [ai1|] eqn:H1; [|done].
    pose proof (grows_exec _ _ _ H1) as (Hh1 & Hw1 & _).
    apply IH; [congruence|congruence|done|].
    eapply sound_exec; eauto.
Qed.

Lemma sound_disjoint ai : sound M ai → mines ai ## safes ai.
Proof. intros (Hm & Hs & _). set_solver. Qed.

End TruthfulRuns.

(** ** The board of a constructed game *)

Section Board.

Import Minesweeper Layout.

Implicit Types (b : list (list bool)) (g : Minesweeper.t) (c : Cell).

Lemma index_nonneg {A} (l : list A) i :
  0 <= i → Py.index l i = l !! Z.to_nat i.
Proof. intros Hi. unfold Py.index. by rewrite decide_True. Qed.

Lemma set_index_nonneg {A} (l l' : list A) i x :
  0 <= i → Py.set_index l i x = Some l' →
  (Z.to_nat i < length l)%nat ∧ l' = <[Z.to_nat i := x]> l.
Proof.
  intros Hi. unfold Py.set_index. rewrite decide_True by done.
  case_decide; [|done]. intros [= <-]. split; [lia|done].
Qed.

Lemma lookup_map {A B} (f : A → B) (l : list A) (i : nat) :
  map f l !! i = f <$> (l !! i).
Proof. apply (list_lookup_fmap f l i). Qed.

Lemma range_lookup n (i : nat) :
  (i < Z.to_nat n)%nat → Py.range n !! i = Some (Z.of_nat i).
Proof.
  intros Hi. unfold Py.range. rewrite lookup_map.
  by rewrite lookup_seq_lt.
Qed.

Lemma board_get_nonneg b i j :
  0 <= i → 0 <= j →
  board_get b i j = b !! Z.to_nat i ≫= (λ row, row !! Z.to_nat j).
Proof.
  intros Hi Hj. unfold board_get. rewrite index_nonneg by done.
  destruct (b !! Z.to_nat i); simpl; [|done]. by apply index_nonneg.
Qed.

Lemma empty_board_get h w c :
  in_bounds h w c → board_get (empty_board h w) c.1 c.2 = Some false.
Proof.
  intros [[? ?] [? ?]]. rewrite board_get_nonneg by done.
  unfold empty_board. rewrite lookup_map, range_lookup by lia. simpl.
  by rewrite lookup_map, range_lookup by lia.
Qed.

(** What [self.board[i][j] = True] changes. *)
Lemma board_set_get b b' i j i' j' :
  0 <= i → 0 <= j → 0 <= i' → 0 <= j' →
  board_set b i j = Some b' →
  board_get b' i' j'
  = if decide ((i', j') = (i, j)) then Some true else board_get b i' j'.
Proof.
  intros Hi Hj Hi' Hj'. unfold board_set.
  rewrite index_nonneg by done.
  destruct (b !! Z.to_nat i) as [row|] eqn:Hrow; simpl; [|done].
  destruct (Py.set_index row j true) as [row'|] eqn:Hset; simpl; [|done].
  apply set_index_nonneg in Hset as [Hlt ->]; [|done].
  intros [Hlt' ->]%set_index_nonneg; [|done].
  rewrite !board_get_nonneg by done.
  destruct (decide (i' = i)) as [->|Hne].
  - rewrite list_lookup_insert_eq by done. rewrite Hrow. simpl.
    destruct (decide (j' = j)) as [->|Hne].
    + rewrite decide_True by done. by rewrite list_lookup_insert_eq.
    + rewrite decide_False by congruence.
      rewrite list_lookup_insert_ne by lia. done.
  - rewrite decide_False by congruence.
    by rewrite list_lookup_insert_ne by lia.
Qed.

Lemma randrange_range n d r : randrange n d = Some r → 0 <= r < n.
Proof.
  unfold randrange. case_decide; [|done]. intros [= <-].
  by apply Z.mod_pos_bound.
Qed.

(** One mine more keeps the board and the mine set in agreement. *)
Lemma placed_step h w g i j b' :
  placed h w g → in_bounds h w (i, j) →
  board_set (board g) i j = Some b' →
  placed h w (Game (height g) (width g) ({[(i, j)]} ∪ mines g) b'
                   (mines_found g)).
Proof.
  intros (Hh & Hw & Hin & Hb) Hij Hset.
  split; [done|]. split; [done|]. split.
  - intros c [->%elem_of_singleton|Hc]%elem_of_union; [done|by apply Hin].
  - intros c Hc. unfold is_mine. simpl in *.
    pose proof (Hb c Hc) as Hold. unfold is_mine in Hold.
    destruct Hc as [[? ?] [? ?]], Hij as [[? ?] [? ?]]. simpl in *.
    rewrite (board_set_get (board g) b' i j c.1 c.2 ltac:(lia) ltac:(lia)
               ltac:(lia) ltac:(lia) Hset).
    destruct (decide ((c.1, c.2) = (i, j))) as [Heq|Heq].
    + f_equal. symmetry. apply bool_decide_eq_true_2.
      destruct c; simpl in *. set_solver.
    + rewrite Hold. f_equal.
      apply bool_decide_ext. destruct c; simpl in *. set_solver.
Qed.

Lemma place_mines_placed h w draws n g g' :
  placed h w g → place_mines draws n g = Py.Returned g' →
  placed h w g' ∧ Py.len (mines g') = n.
Proof.
  revert g. induction draws as [|[di dj] draws IH]; intros g Hg; simpl.
  { case_decide; [|done]. by intros [= <-]. }
  case_decide; [by intros [= <-]|].
  pose proof Hg as (Hh & Hw & Hin & Hb).
  destruct (randrange (height g) di) as [i|] eqn:Hi; [|done].
  destruct (randrange (width g) dj) as [j|] eqn:Hj; [|done].
  apply randrange_range in Hi, Hj. rewrite Hh in Hi. rewrite Hw in Hj.
  assert (in_bounds (height g) (width g) (i, j)) as Hij.
  { rewrite Hh, Hw. done. }
  pose proof (Hb (i, j) Hij) as Hget. unfold is_mine in Hget.
  simpl in Hget. rewrite Hget.
  case_bool_decide as Hmine; [by apply IH|].
  destruct (board_set (board g) i j) as [b'|] eqn:Hset; [|done].
  apply IH. apply placed_step; [done| |done]. by rewrite <- Hh, <- Hw.
Qed.

Lemma init_placed draws h w n g :
  init draws h w n = Py.Returned g →
  placed h w g ∧ Py.len (mines g) = n.
Proof.
  apply place_mines_placed. split; [done|]. split; [done|]. split.
  - intros c Hc. simpl in Hc. set_solver.
  - intros c Hc. unfold is_mine. simpl in *.
    by rewrite empty_board_get.
Qed.

(** Where [self.board[i][j]] can be read it can be assigned. *)
Lemma board_set_is_Some b i j v :
  0 <= i → 0 <= j → board_get b i j = Some v → is_Some (board_set b i j).
Proof.
  intros Hi Hj. unfold board_get, board_set.
  rewrite index_nonneg by done.
  destruct (b !! Z.to_nat i) as [row|] eqn:Hrow; simpl; [|done].
  rewrite index_nonneg by done. intros Hv.
  apply lookup_lt_Some in Hrow, Hv.
  unfold Py.set_index. rewrite !decide_True by lia. simpl.
  rewrite !decide_True by lia. eauto.
Qed.

(** The draws that hit the cells of the field one after the other, row
    by row. *)
Lemma row_by_row_cell h w (k : nat) :
  0 < h → 0 < w → Z.of_nat k < h * w →
  let di := (k / Z.to_nat w)%nat in
  let dj := (k mod Z.to_nat w)%nat in
  randrange h di = Some (Z.of_nat k / w)
  ∧ randrange w dj = Some (Z.of_nat k mod w)
  ∧ in_bounds h w (Z.of_nat k / w, Z.of_nat k mod w).
Proof.
  intros Hh Hw Hk di dj. unfold randrange.
  rewrite !decide_True by done.
  assert (Z.of_nat di = Z.of_nat k / w) as ->.
  { unfold di. rewrite Nat2Z.inj_div. by rewrite Z2Nat.id by lia. }
  assert (Z.of_nat dj = Z.of_nat k mod w) as ->.
  { unfold dj. rewrite Nat2Z.inj_mod. by rewrite Z2Nat.id by lia. }
  assert (0 <= Z.of_nat k / w < h) as Hdiv.
  { split; [apply Z.div_pos; lia|].
    apply Z.div_lt_upper_bound; lia. }
  pose proof (Z.mod_pos_bound (Z.of_nat k) w Hw) as Hmod.
  rewrite Z.mod_small by done. rewrite Z.mod_mod by lia.
  repeat split; simpl; lia.
Qed.

Lemma row_by_row_inj w (k1 k2 : nat) :
  0 < w →
  (Z.of_nat k1 / w, Z.of_nat k1 mod w) = (Z.of_nat k2 / w, Z.of_nat k2 mod w) →
  k1 = k2.
Proof.
  intros Hw [= Hd Hm].
  pose proof (Z.div_mod (Z.of_nat k1) w ltac:(lia)).
  pose proof (Z.div_mod (Z.of_nat k2) w ltac:(lia)).
  apply Nat2Z.inj. congruence.
Qed.

(** With these draws the loop places the mines [k], [k+1], ... until there
    are [n] of them. *)
Lemma place_mines_row_by_row h w n (m k : nat) g :
  0 < h → 0 < w → n <= h * w → Z.of_nat (k + m) = n →
  placed h w g →
  mines g = list_to_set ((λ k' : nat, (Z.of_nat k' / w, Z.of_nat k' mod w))
                           <$> seq 0 k) →
  ∃ g', place_mines
          ((λ k', (k' / Z.to_nat w, k' mod Z.to_nat w)%nat) <$> seq k m) n g
        = Py.Returned g'.
Proof.
  intros Hh Hw Hn. revert k g.
  induction m as [|m IH]; intros k g Hkm Hg Hmines.
  all: assert (Py.len (mines g) = Z.of_nat k) as Hlen.
  1,3: unfold Py.len; rewrite Hmines, size_list_to_set, length_fmap, length_seq;
       [done|];
       apply NoDup_fmap_2_strong; [|apply NoDup_seq];
       intros k1 k2 _ _; by apply row_by_row_inj.
  - simpl. rewrite decide_True by lia. eauto.
  - cbn [fmap list_fmap seq place_mines]. rewrite decide_False by lia.
    destruct (row_by_row_cell h w k) as (Hi & Hj & Hij); [done|done|lia|].
    pose proof Hg as (Hgh & Hgw & Hin & Hb).
    simpl in Hi, Hj. rewrite Hgh, Hgw, Hi, Hj.
    pose proof (Hb (Z.of_nat k / w, Z.of_nat k mod w)) as Hget.
    rewrite Hgh, Hgw in Hget. specialize (Hget Hij).
    unfold is_mine in Hget. simpl in Hget. rewrite Hget.
    rewrite bool_decide_eq_false_2.
    2:{ rewrite Hmines, elem_of_list_to_set, list_elem_of_fmap.
        intros (k' & Heq & Hk'%elem_of_seq).
        apply row_by_row_inj in Heq; [lia|done]. }
    destruct Hij as [[? ?] [? ?]]. simpl in *.
    destruct (board_set_is_Some (board g) (Z.of_nat k / w) (Z.of_nat k mod w)
                _ ltac:(lia) ltac:(lia) Hget) as [b' Hset].
    rewrite Hset. apply (IH (S k)).
    + lia.
    + assert (in_bounds h w (Z.of_nat k / w, Z.of_nat k mod w)) as Hij
        by (split; simpl; lia).
      pose proof (placed_step h w g _ _ b' Hg Hij Hset) as Hp.
      by rewrite Hgh, Hgw in Hp.
    + cbn [mines]. rewrite Hmines, seq_S, fmap_app, list_to_set_app_L.
      simpl. set_solver.
Qed.

(** The constructor can return for every field with at least one cell and
    every number of mines the field has room for. *)
Lemma init_can_return h w n :
  0 < h → 0 < w → 0 <= n <= h * w →
  ∃ draws g, init draws h w n = Py.Returned g.
Proof.
  intros Hh Hw [Hn0 Hn].
  destruct (place_mines_row_by_row h w n (Z.to_nat n) 0
              (Game h w ∅ (empty_board h w) ∅)) as [g' Hg']; try done.
  - simpl. lia.
  - split; [done|]. split; [done|]. split.
    + intros c Hc. simpl in Hc. set_solver.
    + intros c Hc. unfold is_mine. simpl in *. by rewrite empty_board_get.
  - eauto.
Qed.

(** [nearby_mines] counts the mines of the layout around the cell. *)
Lemma nearby_fold g cell l n :
  board_agrees g →
  foldl (nearby_step g cell) (Some n) l
  = Some (n + Z.of_nat (length (filter
      (λ c, c ≠ cell ∧ in_bounds (height g) (width g) c ∧ c ∈ mines g) l))).
Proof.
  intros Hb. revert n. induction l as [|c l IH]; intros n; cbn [foldl].
  { rewrite filter_nil. f_equal. simpl. lia. }
  unfold nearby_step at 2. simpl.
  destruct (decide (c = cell)) as [->|Hne].
  { rewrite filter_cons_False by tauto. apply IH. }
  destruct (decide (in_bounds (height g) (width g) c)) as [Hc|Hc].
  - pose proof (Hb c Hc) as Hget. unfold is_mine in Hget.
    destruct Hc as [? ?].
    rewrite !bool_decide_eq_true_2 by done. simpl. rewrite Hget. simpl.
    case_bool_decide as Hm; rewrite IH.
    + rewrite filter_cons_True by done. f_equal. simpl. lia.
    + rewrite filter_cons_False by tauto. done.
  - rewrite filter_cons_False by tauto.
    assert (bool_decide (0 <= c.1 < height g)
            && bool_decide (0 <= c.2 < width g) = false) as ->; [|apply IH].
    apply not_true_is_false. intros [H1 H2]%andb_prop.
    apply bool_decide_eq_true_1 in H1, H2. by apply Hc.
Qed.

Lemma nearby_mines_layout g cell :
  board_agrees g →
  nearby_mines g cell
  = Some (mines_around (mines g) (height g) (width g) cell).
Proof.
  intros Hb. unfold nearby_mines, mines_around.
  by rewrite nearby_fold.
Qed.

End Board.

(** * The claims *)

(** C6. For every sentence, [known_mines()] returns the full cell set when
    [count] equals the number of cells and the empty set otherwise,
    [known_safes()] returns the full cell set when [count] is 0 and the
    empty set otherwise, and neither call changes the sentence. *)
Theorem known_mines_known_safes_spec (s : Sentence) :
  (Sentence.count s = Py.len (Sentence.cells s) →
   Sentence.known_mines s = Sentence.cells s)
  ∧ (Sentence.count s ≠ Py.len (Sentence.cells s) →
     Sentence.known_mines s = ∅)
  ∧ (Sentence.count s = 0 → Sentence.known_safes s = Sentence.cells s)
  ∧ (Sentence.count s ≠ 0 → Sentence.known_safes s = ∅)
  ∧ Sentence.call Sentence.KnownMines s = (Some (Sentence.known_mines s), s)
  ∧ Sentence.call Sentence.KnownSafes s = (Some (Sentence.known_safes s), s).
Proof.
  unfold Sentence.known_mines, Sentence.known_safes.
  repeat split; intros; case_decide; congruence.
Qed.

Lemma known_mines_known_safes_witness :
  Sentence.known_mines (Sentence.Sentence {[(0, 0)]} 1) = {[(0, 0)]}
  ∧ Sentence.known_mines (Sentence.Sentence {[(0, 0); (0, 1)]} 1) = ∅
  ∧ Sentence.known_safes (Sentence.Sentence {[(0, 0); (0, 1)]} 0)
    = {[(0, 0); (0, 1)]}
  ∧ Sentence.known_safes (Sentence.Sentence {[(0, 0); (0, 1)]} 1) = ∅.
Proof.
  destruct (known_mines_known_safes_spec (Sentence.Sentence {[(0, 0)]} 1))
    as (Hm1 & _).
  destruct (known_mines_known_safes_spec
              (Sentence.Sentence {[(0, 0); (0, 1)]} 1))
    as (_ & Hm2 & _ & Hs2 & _).
  destruct (known_mines_known_safes_spec
              (Sentence.Sentence {[(0, 0); (0, 1)]} 0))
    as (_ & _ & Hs1 & _).
  split; [|split; [|split]].
  - apply Hm1. reflexivity.
  - apply Hm2. vm_compute. discriminate.
  - apply Hs1. reflexivity.
  - apply Hs2. simpl. lia.
Defined.

(** C7. Marking a cell twice on a sentence gives the sentence that marking
    it once gives.  [mark_mine] of a cell of the sentence removes it and
    lowers [count] by exactly 1, [mark_safe] removes it and leaves [count],
    and both leave a sentence without the cell as it is.  Marking twice is
    marking once on the whole knowledge base too. *)
Theorem mark_twice_is_mark_once (s : Sentence) (c : Cell)
    (ai : MinesweeperAI.t) :
  Sentence.mark_mine c (Sentence.mark_mine c s) = Sentence.mark_mine c s
  ∧ Sentence.mark_safe c (Sentence.mark_safe c s) = Sentence.mark_safe c s
  ∧ (c ∈ Sentence.cells s →
     Sentence.cells (Sentence.mark_mine c s) = Sentence.cells s ∖ {[c]}
     ∧ Sentence.count (Sentence.mark_mine c s) = Sentence.count s - 1)
  ∧ (c ∈ Sentence.cells s →
     Sentence.cells (Sentence.mark_safe c s) = Sentence.cells s ∖ {[c]}
     ∧ Sentence.count (Sentence.mark_safe c s) = Sentence.count s)
  ∧ (c ∉ Sentence.cells s →
     Sentence.mark_mine c s = s ∧ Sentence.mark_safe c s = s)
  ∧ MinesweeperAI.mark_mine c (MinesweeperAI.mark_mine c ai)
    = MinesweeperAI.mark_mine c ai
  ∧ MinesweeperAI.mark_safe c (MinesweeperAI.mark_safe c ai)
    = MinesweeperAI.mark_safe c ai.
Proof.
  split; [apply sentence_mark_mine_idem|].
  split; [apply sentence_mark_safe_idem|].
  split; [intros Hin; by rewrite sentence_mark_mine_in|].
  split; [intros Hin; by rewrite sentence_mark_safe_in|].
  split.
  { intros Hout. split;
      [by apply sentence_mark_mine_notin|by apply sentence_mark_safe_notin]. }
  split; [apply ai_mark_mine_idem|apply ai_mark_safe_idem].
Qed.

Lemma mark_twice_is_mark_once_witness :
  let s := Sentence.Sentence {[(0, 0); (1, 1)]} 2 in
  Sentence.cells (Sentence.mark_mine (0, 0) s) = {[(0, 0); (1, 1)]} ∖ {[(0, 0)]}
  ∧ Sentence.count (Sentence.mark_mine (0, 0) s) = 2 - 1
  ∧ Sentence.cells (Sentence.mark_safe (0, 0) s) = {[(0, 0); (1, 1)]} ∖ {[(0, 0)]}
  ∧ Sentence.count (Sentence.mark_safe (0, 0) s) = 2
  ∧ Sentence.mark_mine (0, 2) s = s
  ∧ Sentence.mark_safe (0, 2) s = s.
Proof.
  intros s.
  destruct (mark_twice_is_mark_once s (0, 0) (MinesweeperAI.init 3 3))
    as (_ & _ & Hm & Hs & _).
  destruct (mark_twice_is_mark_once s (0, 2) (MinesweeperAI.init 3 3))
    as (_ & _ & _ & _ & Ho & _).
  assert ((0, 0) ∈ Sentence.cells s) as Hin.
  { apply (bool_decide_unpack _). vm_compute. exact I. }
  assert ((0, 2) ∉ Sentence.cells s) as Hout.
  { apply (bool_decide_unpack _). vm_compute. exact I. }
  destruct (Hm Hin) as [Hm1 Hm2], (Hs Hin) as [Hs1 Hs2], (Ho Hout) as [Ho1 Ho2].
  repeat split; assumption.
Defined.

(** C9. The sentence that [add_knowledge(cell, count)] builds from the
    observation never contains [cell], although the two [range] loops visit
    the cell's own coordinates: the cell has been marked safe before the
    loops run, and known safe cells are left out. *)
Theorem new_sentence_excludes_observed_cell
    (ai : MinesweeperAI.t) (cell : Cell) (n : Z) :
  ∃ s, MinesweeperAI.knowledge (MinesweeperAI.observe cell n ai)
       = map (Sentence.mark_safe cell) (MinesweeperAI.knowledge ai) ++ [s]
       ∧ cell ∈ MinesweeperAI.around cell
       ∧ cell ∈ MinesweeperAI.safes (MinesweeperAI.observe cell n ai)
       ∧ (cell ∉ Sentence.cells s)
       ∧ Sentence.cells s ## MinesweeperAI.safes (MinesweeperAI.observe cell n ai).
Proof.
  eexists. split; [reflexivity|].
  split; [apply around_self|].
  split; [simpl; set_solver|].
  split.
  - intros (_ & _ & Hs & _)%new_sentence_unknown. apply Hs. simpl. set_solver.
  - intros c (_ & _ & Hs & _)%new_sentence_unknown Hc. by apply Hs.
Qed.

(** C10. A game built by [Minesweeper(height, width, mines)] has exactly
    the requested number of mines, all of them in bounds, and [is_mine]
    answers for every cell in bounds whether it is in the mine set; the
    methods of the game leave it as it is, so this stays true. *)
Theorem constructed_game_invariant
    (draws : list (nat * nat)) (h w n : Z) (g : Minesweeper.t) :
  Minesweeper.init draws h w n = Py.Returned g →
  Py.len (Minesweeper.mines g) = n
  ∧ Minesweeper.height g = h ∧ Minesweeper.width g = w
  ∧ (∀ c, c ∈ Minesweeper.mines g → Layout.in_bounds h w c)
  ∧ (∀ c, Layout.in_bounds h w c →
          Minesweeper.is_mine g c
          = Some (bool_decide (c ∈ Minesweeper.mines g)))
  ∧ (∀ m, (Minesweeper.call m g).2 = g).
Proof.
  intros [(Hh & Hw & Hin & Hb) Hn]%init_placed.
  split; [done|]. split; [done|]. split; [done|]. split; [done|]. split.
  - intros c Hc. apply Hb. by rewrite Hh, Hw.
  - by intros [].
Qed.

Lemma constructed_game_invariant_witness :
  Py.len (Minesweeper.mines Scenario.centre_mine) = 1
  ∧ Minesweeper.is_mine Scenario.centre_mine (1, 1) = Some true
  ∧ Minesweeper.is_mine Scenario.centre_mine (2, 1) = Some false.
Proof.
  assert (Minesweeper.init [(1, 1)%nat] 3 3 1
          = Py.Returned Scenario.centre_mine) as Hinit.
  { vm_compute. reflexivity. }
  destruct (constructed_game_invariant _ _ _ _ _ Hinit)
    as (Hn & _ & _ & _ & Hb & _).
  split; [exact Hn|]. split.
  - rewrite (Hb (1, 1)); [reflexivity|]. unfold Layout.in_bounds. simpl. lia.
  - rewrite (Hb (2, 1)); [reflexivity|]. unfold Layout.in_bounds. simpl. lia.
Defined.

(** ** The pairwise scan on a list without nested sentences *)

Section Unchanged.

Import MinesweeperAI Layout.
Implicit Types (s o : Sentence) (k nk : list Sentence).

Lemma longer_superset_nested s o :
  Py.len (Sentence.cells s) > Py.len (Sentence.cells o) →
  Sentence.cells o ⊆ Sentence.cells s → nested s o.
Proof.
  unfold nested, Py.len. intros Hlen Hsub. split; [done|].
  intros Hsup%subseteq_size. lia.
Qed.




End Unchanged.

(** ** What does not hold as stated *)

(** C1, where the code falls short.  On a three by three board with one
    mine in the middle the player has revealed (0,0) and (0,2).  The call
    [add_knowledge((0,1), 1)] returns with the derived sentence
    [{(1,2)} = 0] in the knowledge base, which decides its cell, and with
    (1,2) in neither [safes] nor [mines]. *)
Theorem determined_sentence_left_by_add_knowledge :
  Minesweeper.init [(1, 1)%nat] 3 3 1 = Py.Returned Scenario.centre_mine
  ∧ map (Scenario.reveal Scenario.centre_mine) [(0, 0); (0, 2); (0, 1)]
    = [((0, 0), 1); ((0, 2), 1); ((0, 1), 1)]
  ∧ ∃ ai ai',
      Scenario.after Scenario.centre_mine [(0, 0); (0, 2)] = Py.Returned ai
      ∧ MinesweeperAI.add_knowledge (0, 1) 1 ai = Py.Returned ai'
      ∧ MinesweeperAI.knowledge ai'
        = [Sentence.Sentence {[(1, 0); (1, 1)]} 1;
           Sentence.Sentence {[(1, 1); (1, 2)]} 1;
           Sentence.Sentence {[(1, 2)]} 0]
      ∧ Layout.determined (Sentence.Sentence {[(1, 2)]} 0)
      ∧ (1, 2) ∉ MinesweeperAI.safes ai' ∪ MinesweeperAI.mines ai'.
Proof.
  split; [vm_compute; reflexivity|]. split; [vm_compute; reflexivity|].
  eexists _, _. split; [vm_compute; reflexivity|].
  split; [vm_compute; reflexivity|]. split; [vm_compute; reflexivity|].
  split; apply (bool_decide_unpack _); vm_compute; exact I.
Qed.

(** C2, where the code falls short.  Same board; the player has revealed
    (0,0), (0,2) and (0,1).  In [add_knowledge((2,2), 1)] the pairwise scan
    starts on four sentences, among them [{(1,1),(2,1)} = 1] and its
    strict subset [{(1,1)} = 1].  The two removals made during the scan
    shift the list under both loops, the pair is never compared, and the
    call returns with both sentences in place and without the sentence
    [{(2,1)} = 0] the pair gives. *)
Theorem nested_pair_skipped_by_scan :
  map (Scenario.reveal Scenario.centre_mine) [(0, 0); (0, 2); (0, 1); (2, 2)]
  = [((0, 0), 1); ((0, 2), 1); ((0, 1), 1); ((2, 2), 1)]
  ∧ ∃ ai ai3 ai',
      Scenario.after Scenario.centre_mine [(0, 0); (0, 2); (0, 1)]
      = Py.Returned ai
      ∧ MinesweeperAI.reevaluate 4 0 (MinesweeperAI.observe (2, 2) 1 ai)
        = Py.Returned ai3
      ∧ MinesweeperAI.knowledge ai3
        = [Sentence.Sentence {[(1, 0); (1, 1)]} 1;
           Sentence.Sentence {[(1, 1)]} 1;
           Sentence.Sentence ∅ 0;
           Sentence.Sentence {[(1, 1); (2, 1)]} 1]
      ∧ Layout.nested (Sentence.Sentence {[(1, 1); (2, 1)]} 1)
                      (Sentence.Sentence {[(1, 1)]} 1)
      ∧ MinesweeperAI.add_knowledge (2, 2) 1 ai = Py.Returned ai'
      ∧ MinesweeperAI.knowledge ai'
        = [Sentence.Sentence {[(1, 1)]} 1;
           Sentence.Sentence {[(1, 1); (2, 1)]} 1;
           Sentence.Sentence {[(1, 0)]} 0]
      ∧ Sentence.Sentence {[(2, 1)]} 0 ∉ MinesweeperAI.knowledge ai'.
Proof.
  split; [vm_compute; reflexivity|].
  eexists _, _, _. split; [vm_compute; reflexivity|].
  split; [vm_compute; reflexivity|]. split; [vm_compute; reflexivity|].
  split; [apply (bool_decide_unpack _); vm_compute; exact I|].
  split; [vm_compute; reflexivity|]. split; [vm_compute; reflexivity|].
  apply (bool_decide_unpack _); vm_compute; exact I.
Qed.

(** C4, where the code falls short.  On a row of five cells with a mine in
    the middle the player has revealed (0,1) and (0,3).  In
    [add_knowledge((0,0), 0)] the re-evaluation empties all three
    sentences; the scan removes two of them, the removals end both loops
    early, and the call returns with an empty sentence in the knowledge
    base. *)
Theorem empty_sentence_left_by_add_knowledge :
  Minesweeper.init [(0, 2)%nat] 1 5 1 = Py.Returned Scenario.row_mine
  ∧ map (Scenario.reveal Scenario.row_mine) [(0, 1); (0, 3); (0, 0)]
    = [((0, 1), 1); ((0, 3), 1); ((0, 0), 0)]
  ∧ ∃ ai ai3 ai',
      Scenario.after Scenario.row_mine [(0, 1); (0, 3)] = Py.Returned ai
      ∧ MinesweeperAI.reevaluate 3 0 (MinesweeperAI.observe (0, 0) 0 ai)
        = Py.Returned ai3
      ∧ MinesweeperAI.knowledge ai3
        = [Sentence.Sentence ∅ 0; Sentence.Sentence ∅ 0; Sentence.Sentence ∅ 0]
      ∧ MinesweeperAI.add_knowledge (0, 0) 0 ai = Py.Returned ai'
      ∧ MinesweeperAI.knowledge ai' = [Sentence.Sentence ∅ 0].
Proof.
  split; [vm_compute; reflexivity|]. split; [vm_compute; reflexivity|].
  eexists _, _, _. split; [vm_compute; reflexivity|].
  split; [vm_compute; reflexivity|]. split; [vm_compute; reflexivity|].
  split; vm_compute; reflexivity.
Qed.

(** C8, where the code falls short.  Every call stops (lemma
    [add_knowledge_stops]), but not every call returns.  On the three by
    three board with a mine in the middle the player has revealed (0,1),
    (2,0) and (2,2).  In [add_knowledge((2,1), 1)] the scan retires the
    five-cell sentence of (0,1) for its subset [{(1,0),(1,1)} = 1], goes on
    with the same sentence, finds its subset [{(1,0),(1,1),(1,2)} = 1] and
    calls [remove] for it again: [ValueError]. *)
Theorem add_knowledge_raises_in_a_game :
  map (Scenario.reveal Scenario.centre_mine) [(0, 1); (2, 0); (2, 2); (2, 1)]
  = [((0, 1), 1); ((2, 0), 1); ((2, 2), 1); ((2, 1), 1)]
  ∧ ∃ ai ai3 ai',
      Scenario.after Scenario.centre_mine [(0, 1); (2, 0); (2, 2)]
      = Py.Returned ai
      ∧ MinesweeperAI.reevaluate 4 0 (MinesweeperAI.observe (2, 1) 1 ai)
        = Py.Returned ai3
      ∧ MinesweeperAI.knowledge ai3
        = [Sentence.Sentence {[(0, 0); (0, 2); (1, 0); (1, 1); (1, 2)]} 1;
           Sentence.Sentence {[(1, 0); (1, 1)]} 1;
           Sentence.Sentence {[(1, 1); (1, 2)]} 1;
           Sentence.Sentence {[(1, 0); (1, 1); (1, 2)]} 1]
      ∧ MinesweeperAI.add_knowledge (2, 1) 1 ai
        = Py.Raised Py.ValueError ai'
      ∧ MinesweeperAI.knowledge ai'
        = [Sentence.Sentence {[(1, 0); (1, 1)]} 1;
           Sentence.Sentence {[(1, 1); (1, 2)]} 1;
           Sentence.Sentence {[(1, 0); (1, 1); (1, 2)]} 1].
Proof.
  split; [vm_compute; reflexivity|].
  eexists _, _, _. split; [vm_compute; reflexivity|].
  split; [vm_compute; reflexivity|]. split; [vm_compute; reflexivity|].
  split; vm_compute; reflexivity.
Qed.

(** ** Mines and safes *)

(** What the driver does is truthful: a cell of a constructed game that
    [is_mine] denies, with the count [nearby_mines] gives for it. *)
Lemma driver_truthful draws h w n g cell k :
  Minesweeper.init draws h w n = Py.Returned g →
  Layout.in_bounds h w cell →
  Minesweeper.is_mine g cell = Some false →
  Minesweeper.nearby_mines g cell = Some k →
  Layout.truthful (Minesweeper.mines g) h w (Calls.AddKnowledge cell k).
Proof.
  intros [(Hh & Hw & Hin & Hb) _]%init_placed Hc Hm Hk. simpl.
  rewrite nearby_mines_layout in Hk by done.
  rewrite Hh, Hw in Hk. split; [|congruence].
  rewrite Hb in Hm by (by rewrite Hh, Hw).
  intros Hcm. by rewrite bool_decide_eq_true_2 in Hm.
Qed.

(** C3 as stated fails: in a sequence of calls a cell can end up in both
    sets.  [mark_mine] and [mark_safe] of one cell do it, and so does
    [add_knowledge] for a cell the knowledge base has found to be a mine. *)
Lemma mines_and_safes_can_overlap :
  (∃ ai, Calls.run [Calls.MarkMine (0, 0); Calls.MarkSafe (0, 0)]
                   (MinesweeperAI.init 3 3) = Some ai
         ∧ ¬ MinesweeperAI.mines ai ## MinesweeperAI.safes ai)
  ∧ (∃ ai, Calls.run [Calls.AddKnowledge (0, 0) 1; Calls.AddKnowledge (0, 1) 0]
                     (MinesweeperAI.init 1 2) = Some ai
           ∧ (0, 1) ∈ MinesweeperAI.mines ai
           ∧ (0, 1) ∈ MinesweeperAI.safes ai).
Proof.
  split.
  - eexists. split; [vm_compute; reflexivity|].
    apply (bool_decide_unpack _). vm_compute. exact I.
  - eexists. split; [vm_compute; reflexivity|].
    split; apply (bool_decide_unpack _); vm_compute; exact I.
Qed.

(** ** Equal sentences *)




(** ** Marking a set of cells *)

Section MarkAll.

Import MinesweeperAI.
Implicit Types (ai : MinesweeperAI.t) (s : Sentence) (c : Cell).

Lemma foldl_mark_safe_eq (l : list Cell) ai :
  foldl (λ a c, mark_safe c a) ai l
  = AI (height ai) (width ai) (moves_made ai) (mines ai)
       (list_to_set l ∪ safes ai)
       (map (λ s, Sentence.Sentence (Sentence.cells s ∖ list_to_set l)
                                    (Sentence.count s))
            (knowledge ai)).
Proof.
  revert ai. induction l as [|c l IH]; intros ai; simpl.
  - destruct ai as [h w mv mi sa k]; simpl. f_equal; [set_solver|].
    rewrite <- (map_id k) at 1. apply map_ext. intros [cs n]; simpl.
    f_equal. set_solver.
  - rewrite IH. simpl. f_equal; [set_solver|].
    rewrite map_map. apply map_ext. intros s.
    rewrite sentence_mark_safe_eq. simpl. f_equal. set_solver.
Qed.

Lemma foldl_mark_mine_eq (l : list Cell) ai :
  NoDup l →
  foldl (λ a c, mark_mine c a) ai l
  = AI (height ai) (width ai) (moves_made ai)
       (list_to_set l ∪ mines ai) (safes ai)
       (map (λ s, Sentence.Sentence
                    (Sentence.cells s ∖ list_to_set l)
                    (Sentence.count s
                     - Z.of_nat (size (Sentence.cells s ∩ list_to_set l))))
            (knowledge ai)).
Proof.
  intros Hnd. revert ai.
  induction Hnd as [|c l Hc Hnd IH]; intros ai; simpl.
  - destruct ai as [h w mv mi sa k]; simpl. f_equal; [set_solver|].
    rewrite <- (map_id k) at 1. apply map_ext. intros [cs n]; simpl.
    f_equal; [set_solver|].
    replace (cs ∩ ∅) with (∅ : gset Cell) by set_solver.
    rewrite (size_empty (C:=gset Cell)). lia.
  - rewrite IH. simpl. f_equal; [set_solver|].
    rewrite map_map. apply map_ext. intros s.
    rewrite sentence_mark_mine_eq. cbn [Sentence.cells Sentence.count].
    assert (c ∉ (list_to_set l : gset Cell)) as Hc'.
    { by rewrite elem_of_list_to_set. }
    f_equal; [set_solver|].
    replace (Sentence.cells s ∩ ({[c]} ∪ list_to_set l))
      with ((Sentence.cells s ∩ {[c]})
            ∪ ((Sentence.cells s ∖ {[c]}) ∩ list_to_set l)) by set_solver.
    rewrite (size_union (C:=gset Cell) (Sentence.cells s ∩ {[c]})
               ((Sentence.cells s ∖ {[c]}) ∩ list_to_set l)) by set_solver.
    destruct (decide (c ∈ Sentence.cells s)) as [Hin|Hin].
    + assert (Sentence.cells s ∩ {[c]} = {[c]}) as -> by set_solver.
      rewrite size_singleton. lia.
    + assert (Sentence.cells s ∩ {[c]} = ∅) as -> by set_solver.
      rewrite size_empty. lia.
Qed.

Lemma mark_safe_all_eq (S : gset Cell) ai :
  mark_safe_all S ai
  = AI (height ai) (width ai) (moves_made ai) (mines ai) (S ∪ safes ai)
       (map (λ s, Sentence.Sentence (Sentence.cells s ∖ S) (Sentence.count s))
            (knowledge ai)).
Proof.
  unfold mark_safe_all. rewrite foldl_mark_safe_eq.
  by rewrite list_to_set_elements_L.
Qed.

Lemma mark_mine_all_eq (S : gset Cell) ai :
  mark_mine_all S ai
  = AI (height ai) (width ai) (moves_made ai) (S ∪ mines ai) (safes ai)
       (map (λ s, Sentence.Sentence
                    (Sentence.cells s ∖ S)
                    (Sentence.count s - Z.of_nat (size (Sentence.cells s ∩ S))))
            (knowledge ai)).
Proof.
  unfold mark_mine_all. rewrite foldl_mark_mine_eq by apply NoDup_elements.
  by rewrite list_to_set_elements_L.
Qed.

End MarkAll.

(** ** What the pairwise scan keeps *)

Section ScanInvariant.

Import MinesweeperAI Layout Knowledge.

(** [P] holds of the sentences of the list, [Q] of the sentences built
    during the scan. *)
Variables (P Q : Sentence → Prop).
Hypothesis derive : ∀ a b, P a → P b → nested a b → Q (difference a b).
Implicit Types (st : scan) (s o : Sentence) (k : list Sentence).

Lemma remove_Forall s k k' :
  Forall P k → Py.remove s k = Some k' → Forall P k'.
Proof.
  intros Hk Hr%remove_sublist%sublist_subseteq.
  rewrite Forall_forall in Hk |- *. intros x Hx. apply Hk, Hr, Hx.
Qed.

Lemma drop_if_empty_Forall s k k' :
  Forall P k → drop_if_empty s k = Some k' → Forall P k'.
Proof.
  unfold drop_if_empty. case_decide; [apply remove_Forall|].
  by intros ? [= <-].
Qed.

Lemma resolve_pair_inv s o st st' :
  Forall P st.1 → Forall Q st.2 → P s → P o →
  Py.leaves (resolve_pair s o st) st' →
  Forall P st'.1 ∧ Forall Q st'.2.
Proof.
  intros Hk Hn Hs Ho. unfold resolve_pair, Py.leaves.
  destruct (drop_if_empty o st.1) as [k1|] eqn:Hd.
  2:{ intros [[=]|[e [= _ <-]]]. by split. }
  pose proof (drop_if_empty_Forall _ _ _ Hk Hd) as Hk1.
  repeat case_match;
    (intros [[= <-]|[e [= _ <-]]] || intros [[=]|[e [=]]]);
    split; simpl; try done;
    repeat match goal with
           | H : Py.remove _ _ = Some _ |- Forall P _ =>
               apply (remove_Forall _ _ _ Hk1 H)
           | H : _ && _ = true |- _ => apply andb_prop in H as [? ?]
           | H : bool_decide _ = true |- _ => apply bool_decide_eq_true_1 in H
           end;
    apply Forall_app; (split; [done|]); apply Forall_singleton.
  - apply (derive s o Hs Ho). by apply longer_superset_nested.
  - apply (derive o s Ho Hs). by apply longer_superset_nested.
Qed.

Lemma resolve_inner_inv fuel j s st st' :
  Forall P st.1 → Forall Q st.2 → P s →
  Py.leaves (resolve_inner fuel j s st) st' →
  Forall P st'.1 ∧ Forall Q st'.2.
Proof.
  revert j st. induction fuel as [|fuel IH]; intros j st Hk Hn Hs; simpl.
  - destruct (st.1 !! j); intros [[=]|[e [=]]]; by subst.
  - destruct (st.1 !! j) as [o|] eqn:Hj.
    2:{ intros [[=]|[e [=]]]; by subst. }
    assert (P o) as Ho by (eapply Forall_lookup_1; eauto).
    destruct (resolve_pair s o st) as [st1|e1 st1|] eqn:Hp.
    + destruct (resolve_pair_inv s o st st1 Hk Hn Hs Ho) as [Hk1 Hn1].
      { rewrite Hp. by left. }
      by apply IH.
    + intros [[=]|[e [= _ <-]]].
      apply (resolve_pair_inv s o st st1 Hk Hn Hs Ho). rewrite Hp.
      right. eauto.
    + intros [[=]|[e [=]]].
Qed.

Lemma resolve_outer_inv fuel i st st' :
  Forall P st.1 → Forall Q st.2 →
  Py.leaves (resolve_outer fuel i st) st' →
  Forall P st'.1 ∧ Forall Q st'.2.
Proof.
  revert i st. induction fuel as [|fuel IH]; intros i st Hk Hn; simpl.
  - destruct (st.1 !! i); intros [[=]|[e [=]]]; by subst.
  - destruct (st.1 !! i) as [s|] eqn:Hi.
    2:{ intros [[=]|[e [=]]]; by subst. }
    assert (P s) as Hs by (eapply Forall_lookup_1; eauto).
    destruct (drop_if_empty s st.1) as [k1|] eqn:Hd.
    2:{ intros [[=]|[e [= _ <-]]]. done. }
    pose proof (drop_if_empty_Forall s st.1 k1 Hk Hd) as Hk1.
    destruct (resolve_inner (length k1) 0 s (k1, st.2))
      as [st1|e1 st1|] eqn:Hin.
    + destruct (resolve_inner_inv (length k1) 0 s (k1, st.2) st1 Hk1 Hn Hs)
        as [Hk2 Hn2].
      { rewrite Hin. by left. }
      by apply IH.
    + intros [[=]|[e [= _ <-]]].
      apply (resolve_inner_inv (length k1) 0 s (k1, st.2) st1 Hk1 Hn Hs).
      rewrite Hin. right. eauto.
    + intros [[=]|[e [=]]].
Qed.

End ScanInvariant.

Section ScanShape.

Import MinesweeperAI Layout Knowledge.
Implicit Types (st : scan) (s o : Sentence) (k : list Sentence).

Lemma shrinks_refl st : shrinks st st.
Proof.
  split; [done|]. split; [done|]. exists []. by rewrite app_nil_r.
Qed.

Lemma shrinks_trans st1 st2 st3 :
  shrinks st1 st2 → shrinks st2 st3 → shrinks st1 st3.
Proof.
  intros (Hs1 & Hl1 & d1 & Hd1) (Hs2 & Hl2 & d2 & Hd2).
  split; [by etrans|]. split; [lia|].
  exists (d1 ++ d2). by rewrite Hd2, Hd1, app_assoc.
Qed.

Lemma drop_if_empty_sublist s k k' :
  drop_if_empty s k = Some k' → sublist k' k.
Proof.
  unfold drop_if_empty. case_decide; [apply remove_sublist|].
  by intros [= <-].
Qed.

Lemma resolve_pair_shrinks s o st st' :
  Py.leaves (resolve_pair s o st) st' → shrinks st st'.
Proof.
  unfold resolve_pair, Py.leaves.
  destruct (drop_if_empty o st.1) as [k1|] eqn:Hd.
  2:{ intros [[=]|[e [= _ <-]]]. apply shrinks_refl. }
  pose proof (drop_if_empty_sublist _ _ _ Hd) as Hs1.
  pose proof (sublist_length _ _ Hs1) as Hl1.
  repeat case_match;
    (intros [[= <-]|[e [= _ <-]]] || intros [[=]|[e [=]]]);
    repeat match goal with
           | H : Py.remove _ _ = Some _ |- _ =>
               pose proof (remove_sublist _ _ _ H);
               apply remove_length in H
           end;
    (split; [simpl; by etrans|]); simpl;
    (split; [rewrite ?length_app; simpl; lia|]);
    (by eexists) || (exists []; by rewrite app_nil_r).
Qed.

Lemma resolve_inner_shrinks fuel j s st st' :
  Py.leaves (resolve_inner fuel j s st) st' → shrinks st st'.
Proof.
  revert j st. induction fuel as [|fuel IH]; intros j st; simpl.
  - destruct (st.1 !! j); intros [[=]|[e [=]]]; subst; apply shrinks_refl.
  - destruct (st.1 !! j) as [o|] eqn:Hj.
    2:{ intros [[=]|[e [=]]]; subst; apply shrinks_refl. }
    destruct (resolve_pair s o st) as [st1|e1 st1|] eqn:Hp.
    + intros H%IH. eapply shrinks_trans; [|exact H].
      apply (resolve_pair_shrinks s o). rewrite Hp. by left.
    + intros [[=]|[e [= _ <-]]].
      apply (resolve_pair_shrinks s o). rewrite Hp. right. eauto.
    + intros [[=]|[e [=]]].
Qed.

Lemma resolve_outer_shrinks fuel i st st' :
  Py.leaves (resolve_outer fuel i st) st' → shrinks st st'.
Proof.
  revert i st. induction fuel as [|fuel IH]; intros i st; simpl.
  - destruct (st.1 !! i); intros [[=]|[e [=]]]; subst; apply shrinks_refl.
  - destruct (st.1 !! i) as [s|] eqn:Hi.
    2:{ intros [[=]|[e [=]]]; subst; apply shrinks_refl. }
    destruct (drop_if_empty s st.1) as [k1|] eqn:Hd.
    2:{ intros [[=]|[e [= _ <-]]]. apply shrinks_refl. }
    assert (shrinks st (k1, st.2)) as H0.
    { split; [by eapply drop_if_empty_sublist|]. simpl.
      split; [apply drop_if_empty_length in Hd; lia|].
      exists []. by rewrite app_nil_r. }
    destruct (resolve_inner (length k1) 0 s (k1, st.2))
      as [st1|e1 st1|] eqn:Hin.
    + intros H%IH. eapply shrinks_trans; [exact H0|].
      eapply shrinks_trans; [|exact H].
      apply (resolve_inner_shrinks (length k1) 0 s). rewrite Hin. by left.
    + intros [[=]|[e [= _ <-]]]. eapply shrinks_trans; [exact H0|].
      apply (resolve_inner_shrinks (length k1) 0 s). rewrite Hin.
      right. eauto.
    + intros [[=]|[e [=]]].
Qed.

Lemma resolve_pair_raises s o st e st' :
  resolve_pair s o st = Py.Raised e st' → e = Py.ValueError.
Proof.
  unfold resolve_pair. repeat case_match; try done; by intros [= <- _].
Qed.

Lemma resolve_inner_raises fuel j s st e st' :
  resolve_inner fuel j s st = Py.Raised e st' → e = Py.ValueError.
Proof.
  revert j st. induction fuel as [|fuel IH]; intros j st; simpl.
  - by destruct (st.1 !! j).
  - destruct (st.1 !! j) as [o|]; [|done].
    destruct (resolve_pair s o st) as [st1|e1 st1|] eqn:Hp; [apply IH| |done].
    intros [= <- _]. by eapply resolve_pair_raises.
Qed.

Lemma resolve_outer_raises fuel i st e st' :
  resolve_outer fuel i st = Py.Raised e st' → e = Py.ValueError.
Proof.
  revert i st. induction fuel as [|fuel IH]; intros i st; simpl.
  - by destruct (st.1 !! i).
  - destruct (st.1 !! i) as [s|]; [|done].
    destruct (drop_if_empty s st.1) as [k1|]; [|by intros [= <- _]].
    destruct (resolve_inner (length k1) 0 s (k1, st.2))
      as [st1|e1 st1|] eqn:Hin; [apply IH| |done].
    intros [= <- _]. by eapply resolve_inner_raises.
Qed.

(** What [resolve] leaves, in terms of the scan. *)
Lemma resolve_leaves fuel ai ai' :
  Py.leaves (resolve fuel ai) ai' →
  ∃ st', Py.leaves (resolve_outer fuel 0 (knowledge ai, [])) st'
         ∧ ((resolve fuel ai = Py.Returned ai'
             ∧ ai' = with_knowledge ai (st'.1 ++ st'.2))
            ∨ (resolve fuel ai = Py.Raised Py.ValueError ai'
               ∧ ai' = with_knowledge ai st'.1)).
Proof.
  unfold resolve.
  destruct (resolve_outer fuel 0 (knowledge ai, [])) as [st|e st|] eqn:Ho.
  - intros [[= <-]|[e [=]]]. exists st. split; [by left|]. by left.
  - intros [[=]|[e' [= _ <-]]]. exists st. split; [right; eauto|].
    right. split; [|done]. by rewrite (resolve_outer_raises _ _ _ _ _ Ho).
  - intros [[=]|[e [=]]].
Qed.

End ScanShape.

(** ** The steps of [add_knowledge] *)

Section Steps.

Import MinesweeperAI Layout Knowledge.
Implicit Types (ai : MinesweeperAI.t) (s : Sentence) (c : Cell).

Lemma add_knowledge_leaves cell n ai ai' :
  Py.leaves (add_knowledge cell n ai) ai' →
  ∃ ai3, reevaluate (S (length (knowledge ai))) 0 (observe cell n ai)
         = Py.Returned ai3
         ∧ length (knowledge ai3) = S (length (knowledge ai))
         ∧ Py.leaves (resolve (S (length (knowledge ai))) ai3) ai'.
Proof.
  unfold add_knowledge, add_knowledge_fuel.
  destruct (reevaluate_returns (S (length (knowledge ai))) 0
              (observe cell n ai)) as (ai3 & Hre & Hlen).
  { rewrite observe_length. lia. }
  rewrite Hre. intros Hres. exists ai3.
  by rewrite Hlen, observe_length.
Qed.

Lemma foldl_preserves {A B} (I : A → Prop) (f : A → B → A) (l : list B) a :
  (∀ a b, I a → I (f a b)) → I a → I (foldl f a l).
Proof.
  intros Hf. revert a. induction l as [|b l IH]; intros a Ha; simpl; auto.
Qed.

(** *** No sentence mentions a resolved cell *)

Lemma clean_mark_safe c ai : clean ai → clean (mark_safe c ai).
Proof.
  unfold clean. simpl. intros Hk. apply Forall_fmap.
  eapply Forall_impl; [exact Hk|]. intros s Hs. simpl.
  rewrite sentence_mark_safe_cells. set_solver.
Qed.

Lemma clean_mark_mine c ai : clean ai → clean (mark_mine c ai).
Proof.
  unfold clean. simpl. intros Hk. apply Forall_fmap.
  eapply Forall_impl; [exact Hk|]. intros s Hs. simpl.
  rewrite sentence_mark_mine_cells. set_solver.
Qed.

Lemma clean_reevaluate_at i ai : clean ai → clean (reevaluate_at i ai).
Proof.
  intros Hai. unfold reevaluate_at.
  destruct (knowledge ai !! i) as [s|]; [|done].
  assert (clean (mark_safe_all (Sentence.known_safes s) ai)) as H1.
  { unfold mark_safe_all. apply (foldl_preserves clean); [|done].
    intros. by apply clean_mark_safe. }
  destruct (knowledge (mark_safe_all _ ai) !! i) as [s'|]; [|done].
  unfold mark_mine_all. apply (foldl_preserves clean); [|done].
  intros. by apply clean_mark_mine.
Qed.

Lemma clean_reevaluate fuel i ai ai' :
  clean ai → reevaluate fuel i ai = Py.Returned ai' → clean ai'.
Proof.
  revert i ai. induction fuel as [|fuel IH]; intros i ai Hai; simpl.
  - destruct (knowledge ai !! i); [done|]. by intros [= <-].
  - destruct (knowledge ai !! i); [|by intros [= <-]].
    apply IH. by apply clean_reevaluate_at.
Qed.

Lemma clean_observe cell n ai : clean ai → clean (observe cell n ai).
Proof.
  intros Hai. unfold observe.
  set (ai1 := AI _ _ _ _ _ _).
  assert (clean (mark_safe cell ai1)) as H2 by (by apply clean_mark_safe).
  unfold clean. simpl. apply Forall_app. split; [exact H2|].
  apply Forall_singleton. intros c Hc Hc'.
  apply new_sentence_unknown in Hc as (_ & _ & Hs & Hm).
  apply elem_of_union in Hc' as [?|?]; [by apply Hs|by apply Hm].
Qed.

Lemma clean_resolve fuel ai ai' :
  clean ai → Py.leaves (resolve fuel ai) ai' → clean ai'.
Proof.
  intros Hai (st' & Hst & Hcase)%resolve_leaves.
  destruct (resolve_outer_inv
              (λ s, Sentence.cells s ## safes ai ∪ mines ai)
              (λ s, Sentence.cells s ## safes ai ∪ mines ai)
              ltac:(intros a b Ha _ _; simpl; set_solver)
              fuel 0 (knowledge ai, []) st' Hai ltac:(constructor) Hst)
    as [H1 H2].
  destruct Hcase as [[_ ->]|[_ ->]]; unfold clean; simpl; [|done].
  by apply Forall_app.
Qed.

Lemma clean_add_knowledge cell n ai ai' :
  clean ai → Py.leaves (add_knowledge cell n ai) ai' → clean ai'.
Proof.
  intros Hai (ai3 & Hre & _ & Hres)%add_knowledge_leaves.
  eapply clean_resolve; [|exact Hres].
  eapply clean_reevaluate; [|exact Hre]. by apply clean_observe.
Qed.

Lemma clean_run ops ai ai' :
  clean ai → Calls.run ops ai = Some ai' → clean ai'.
Proof.
  revert ai. induction ops as [|o ops IH]; intros ai Hai; simpl.
  - by intros [= <-].
  - destruct (Calls.left_by (Calls.exec o ai)) as [ai1|] eqn:H1; [|done].
    apply IH. apply left_by_leaves in H1. destruct o; simpl in H1.
    + by eapply clean_add_knowledge.
    + destruct H1 as [[= <-]|[? [=]]]. by apply clean_mark_mine.
    + destruct H1 as [[= <-]|[? [=]]]. by apply clean_mark_safe.
    + by destruct H1 as [[= <-]|[? [=]]].
    + by destruct H1 as [[= <-]|[? [=]]].
Qed.

(** *** The sentence of the observation through the re-evaluation *)

Lemma lookup_map_Some {A B} (f : A → B) (l : list A) i x :
  l !! i = Some x → map f l !! i = Some (f x).
Proof. intros H. by rewrite lookup_map, H. Qed.

Lemma tracks_mark_safe_all C i S ai :
  tracks C i ai → tracks C i (mark_safe_all S ai).
Proof.
  intros (s & Hi & H1 & H2). rewrite mark_safe_all_eq.
  eexists. split; [simpl; by apply lookup_map_Some|]. simpl.
  split; [set_solver|].
  intros c Hc. destruct (decide (c ∈ S)); set_solver.
Qed.

Lemma tracks_mark_mine_all C i S ai :
  tracks C i ai → tracks C i (mark_mine_all S ai).
Proof.
  intros (s & Hi & H1 & H2). rewrite mark_mine_all_eq.
  eexists. split; [simpl; by apply lookup_map_Some|]. simpl.
  split; [set_solver|].
  intros c Hc. destruct (decide (c ∈ S)); set_solver.
Qed.

Lemma tracks_reevaluate_at C i j ai :
  tracks C i ai → tracks C i (reevaluate_at j ai).
Proof.
  intros Hai. unfold reevaluate_at.
  destruct (knowledge ai !! j) as [s|]; [|done].
  destruct (knowledge (mark_safe_all _ ai) !! j) as [s'|].
  - by apply tracks_mark_mine_all, tracks_mark_safe_all.
  - by apply tracks_mark_safe_all.
Qed.

Lemma tracks_reevaluate C i fuel j ai ai' :
  tracks C i ai → reevaluate fuel j ai = Py.Returned ai' → tracks C i ai'.
Proof.
  revert j ai. induction fuel as [|fuel IH]; intros j ai Hai; simpl.
  - destruct (knowledge ai !! j); [done|]. by intros [= <-].
  - destruct (knowledge ai !! j); [|by intros [= <-]].
    apply IH. by apply tracks_reevaluate_at.
Qed.

(** After its turn in the re-evaluation a sentence is empty, or its count
    decides nothing. *)
Lemma reevaluate_at_settles i ai s :
  knowledge ai !! i = Some s →
  ∃ s', knowledge (reevaluate_at i ai) !! i = Some s' ∧ ¬ determined s'.
Proof.
  intros Hi. unfold reevaluate_at. rewrite Hi.
  rewrite mark_safe_all_eq. cbn [knowledge].
  rewrite (lookup_map_Some _ _ _ _ Hi).
  rewrite mark_mine_all_eq. cbn [knowledge].
  rewrite (lookup_map_Some _ _ _ _ (lookup_map_Some _ _ _ _ Hi)).
  eexists. split; [done|].
  unfold determined, Sentence.known_safes, Sentence.known_mines, Py.len.
  cbn [Sentence.cells Sentence.count].
  destruct (decide (Sentence.count s = 0)) as [H0|H0].
  - intros [Hne _]. apply Hne. set_solver.
  - assert (Sentence.cells s ∖ ∅ = Sentence.cells s) as -> by set_solver.
    case_decide as Hlen.
    + intros [Hne _]. apply Hne. set_solver.
    + assert (Sentence.cells s ∖ ∅ = Sentence.cells s) as -> by set_solver.
      assert (Sentence.cells s ∩ ∅ = ∅) as -> by set_solver.
      rewrite size_empty. intros [_ [?|?]]; lia.
Qed.

(** The loop ends with the turn of the last sentence; [I] is anything the
    turns keep true. *)
Lemma reevaluate_last (I : MinesweeperAI.t → Prop) fuel i ai :
  (∀ j a, I a → I (reevaluate_at j a)) → I ai →
  length (knowledge ai) = (i + S fuel)%nat →
  ∃ ai0, I ai0 ∧ length (knowledge ai0) = length (knowledge ai)
         ∧ reevaluate (S fuel) i ai
           = Py.Returned (reevaluate_at (i + fuel) ai0).
Proof.
  intros HI. revert i ai. induction fuel as [|fuel IH]; intros i ai Hai Hlen.
  - exists ai. split; [done|]. split; [done|]. cbn [reevaluate].
    destruct (lookup_lt_is_Some_2 (knowledge ai) i) as [s ->]; [lia|].
    rewrite lookup_ge_None_2 by (rewrite reevaluate_at_length; lia).
    by rewrite Nat.add_0_r.
  - destruct (lookup_lt_is_Some_2 (knowledge ai) i) as [s Hs]; [lia|].
    destruct (IH (S i) (reevaluate_at i ai)) as (ai0 & HI0 & Hl & Heq).
    { by apply HI. }
    { rewrite reevaluate_at_length. lia. }
    exists ai0. split; [done|]. split.
    { by rewrite Hl, reevaluate_at_length. }
    change (reevaluate (S (S fuel)) i ai)
      with (match knowledge ai !! i with
            | None => Py.Returned ai
            | Some _ => reevaluate (S fuel) (S i) (reevaluate_at i ai)
            end).
    rewrite Hs, Heq. do 2 f_equal. lia.
Qed.

End Steps.

Section AfterTheCall.

Import MinesweeperAI Layout Knowledge.
Implicit Types (ai : MinesweeperAI.t) (s : Sentence) (c : Cell).

Lemma add_knowledge_eq cell n ai :
  ∃ ai3, reevaluate (S (length (knowledge ai))) 0 (observe cell n ai)
         = Py.Returned ai3
         ∧ length (knowledge ai3) = S (length (knowledge ai))
         ∧ add_knowledge cell n ai = resolve (S (length (knowledge ai))) ai3.
Proof.
  destruct (reevaluate_returns (S (length (knowledge ai))) 0
              (observe cell n ai)) as (ai3 & Hre & Hlen).
  { rewrite observe_length. lia. }
  exists ai3. rewrite Hlen, observe_length.
  unfold add_knowledge, add_knowledge_fuel. by rewrite Hre.
Qed.

Lemma resolve_stops fuel ai :
  (length (knowledge ai) ≤ fuel)%nat →
  ∃ ai', Py.leaves (resolve fuel ai) ai'.
Proof.
  intros Hlen. unfold resolve.
  destruct (resolve_outer_total fuel 0 (knowledge ai, []))
    as [(st' & ->)|(e & st' & ->)]; [simpl; lia| |].
  - eexists. by left.
  - eexists. right. eauto.
Qed.


Lemma holds_count_bounds M s :
  holds M s → 0 <= Sentence.count s <= Py.len (Sentence.cells s).
Proof.
  unfold holds, Py.len. intros ->.
  assert (size (Sentence.cells s ∩ M) ≤ size (Sentence.cells s))%nat.
  { apply subseteq_size. set_solver. }
  lia.
Qed.

(** The sentence of the observation after the re-evaluation pass. *)
Lemma observation_settled cell n ai ai3 :
  reevaluate (S (length (knowledge ai))) 0 (observe cell n ai)
  = Py.Returned ai3 →
  ∃ N s, last (knowledge (observe cell n ai)) = Some N
         ∧ last (knowledge ai3) = Some s
         ∧ ¬ determined s
         ∧ Sentence.cells s ⊆ Sentence.cells N
         ∧ Sentence.cells N ⊆ Sentence.cells s ∪ safes ai3 ∪ mines ai3.
Proof.
  intros Hre.
  set (L := length (knowledge ai)) in *.
  assert (length (knowledge (observe cell n ai)) = S L) as Hlobs
    by apply observe_length.
  assert (∃ N, knowledge (observe cell n ai) !! L = Some N) as [N HN].
  { apply lookup_lt_is_Some_2. lia. }
  assert (tracks (Sentence.cells N) L (observe cell n ai)) as Htr.
  { exists N. split; [done|]. set_solver. }
  destruct (reevaluate_last (tracks (Sentence.cells N) L) L 0
              (observe cell n ai)) as (ai0 & Htr0 & Hl0 & Heq).
  { intros j a. apply tracks_reevaluate_at. }
  { done. }
  { rewrite Hlobs. lia. }
  rewrite Hre in Heq. injection Heq as ->.
  destruct (tracks_reevaluate_at (Sentence.cells N) L L ai0 Htr0)
    as (s' & Hs' & H1 & H2).
  destruct Htr0 as (s0 & Hs0 & _).
  destruct (reevaluate_at_settles L ai0 s0 Hs0) as (s & Hs & Hset).
  exists N, s. rewrite Hs in Hs'. injection Hs' as <-.
  split; [by rewrite last_lookup, Hlobs|].
  split; [by rewrite last_lookup, reevaluate_at_length, Hl0, Hlobs|].
  done.
Qed.

End AfterTheCall.

Section TruthfulObservation.

Import MinesweeperAI Layout Knowledge.
Implicit Types (ai : MinesweeperAI.t) (s : Sentence) (c : Cell).

Lemma resolve_keeps_sets fuel ai ai' :
  Py.leaves (resolve fuel ai) ai' →
  height ai' = height ai ∧ width ai' = width ai
  ∧ moves_made ai' = moves_made ai
  ∧ mines ai' = mines ai ∧ safes ai' = safes ai.
Proof.
  intros (st' & _ & [[_ ->]|[_ ->]])%resolve_leaves; by repeat split.
Qed.

Lemma reevaluate_keeps_moves fuel i ai ai' :
  reevaluate fuel i ai = Py.Returned ai' → moves_made ai' = moves_made ai.
Proof.
  revert i ai. induction fuel as [|fuel IH]; intros i ai; simpl.
  - destruct (knowledge ai !! i); [done|]. by intros [= <-].
  - destruct (knowledge ai !! i) eqn:Hi; [|by intros [= <-]].
    intros ->%IH. unfold reevaluate_at. rewrite Hi.
    rewrite mark_safe_all_eq. cbn [knowledge].
    destruct (map _ (knowledge ai) !! i); [|done].
    by rewrite mark_mine_all_eq.
Qed.

Lemma mines_around_zero M h w cell c :
  mines_around M h w cell = 0 →
  c ∈ around cell → c ≠ cell → in_bounds h w c → c ∉ M.
Proof.
  unfold mines_around. intros Hz Hc Hne Hb HM.
  assert (c ∈ filter (λ c, c ≠ cell ∧ in_bounds h w c ∧ c ∈ M)
                     (Minesweeper.around cell)) as Hin.
  { apply list_elem_of_filter. split; [done|exact Hc]. }
  destruct (filter _ (Minesweeper.around cell)); [|simpl in Hz; lia].
  by apply elem_of_nil in Hin.
Qed.

(** What a truthful observation leads to: the state [ai3] after the
    re-evaluation, the state [ai'] the call leaves, the sentence [N] built
    from the observation and what is left of it, [s]. *)
Lemma truthful_observation M cell ai :
  sound M ai → cell ∉ M →
  ∃ ai2 ai3 ai' N s,
    ai2 = mark_safe cell
            (AI (height ai) (width ai) ({[cell]} ∪ moves_made ai)
                (mines ai) (safes ai) (knowledge ai))
    ∧ N = new_sentence ai2 cell (mines_around M (height ai) (width ai) cell)
    ∧ Py.leaves
        (add_knowledge cell (mines_around M (height ai) (width ai) cell) ai)
        ai'
    ∧ safes ai' = safes ai3 ∧ mines ai' = mines ai3
    ∧ sound M ai3
    ∧ safes ai2 ⊆ safes ai3 ∧ mines ai2 ⊆ mines ai3
    ∧ holds M s ∧ ¬ determined s
    ∧ Sentence.cells s ⊆ Sentence.cells N
    ∧ Sentence.cells N ⊆ Sentence.cells s ∪ safes ai3 ∪ mines ai3.
Proof.
  intros Hai Hc.
  set (n := mines_around M (height ai) (width ai) cell).
  destruct (add_knowledge_eq cell n ai) as (ai3 & Hre & Hlen & Heq).
  destruct (resolve_stops (S (length (knowledge ai))) ai3) as [ai' Hres];
    [lia|].
  destruct (observation_settled cell n ai ai3 Hre)
    as (N & s & HN & Hs & Hset & H1 & H2).
  assert (sound M ai3) as Hai3.
  { eapply sound_reevaluate; [|exact Hre]. by apply sound_observe. }
  pose proof (grows_reevaluate _ _ _ _ Hre) as (_ & _ & _ & Hgm & Hgs).
  destruct (resolve_keeps_sets _ _ _ Hres) as (_ & _ & _ & Hm' & Hs').
  eexists _, ai3, ai', N, s. split; [reflexivity|].
  split.
  { unfold observe in HN. cbn [knowledge with_knowledge] in HN.
    rewrite last_snoc in HN. by injection HN as <-. }
  split; [by rewrite Heq|].
  split; [done|]. split; [done|]. split; [done|].
  split; [exact Hgs|]. split; [exact Hgm|].
  split; [|done].
  destruct Hai3 as (_ & _ & Hk). rewrite last_lookup in Hs.
  eapply Forall_lookup_1; eauto.
Qed.

End TruthfulObservation.

(** ** Mines and safes stay apart *)

Section Apart.

Import MinesweeperAI Calls Layout Knowledge.
Implicit Types (ai : MinesweeperAI.t) (s : Sentence) (c : Cell).

Lemma known_safes_cells s : Sentence.known_safes s ⊆ Sentence.cells s.
Proof. unfold Sentence.known_safes. case_decide; set_solver. Qed.

Lemma known_mines_cells s : Sentence.known_mines s ⊆ Sentence.cells s.
Proof. unfold Sentence.known_mines. case_decide; set_solver. Qed.

(** The cells a sentence decides are cells of the sentence; on a clean
    knowledge base they are in neither set, so marking them keeps the sets
    apart. *)
Lemma apart_reevaluate_at i ai :
  clean ai → mines ai ## safes ai →
  mines (reevaluate_at i ai) ## safes (reevaluate_at i ai).
Proof.
  intros Hc Hd. unfold reevaluate_at.
  destruct (knowledge ai !! i) as [s|] eqn:Hi; [|done].
  pose proof (Forall_lookup_1 _ _ _ _ Hc Hi) as Hs. simpl in Hs.
  rewrite mark_safe_all_eq. cbn [knowledge].
  rewrite lookup_map, Hi. cbn [fmap option_fmap option_map].
  rewrite mark_mine_all_eq. cbn [mines safes].
  pose proof (known_safes_cells s) as H1.
  pose proof (known_mines_cells
                (Sentence.Sentence
                   (Sentence.cells s ∖ Sentence.known_safes s)
                   (Sentence.count s))) as H2.
  cbn [Sentence.cells] in H2. set_solver.
Qed.

Lemma apart_reevaluate fuel i ai ai' :
  clean ai → mines ai ## safes ai →
  reevaluate fuel i ai = Py.Returned ai' → mines ai' ## safes ai'.
Proof.
  revert i ai. induction fuel as [|fuel IH]; intros i ai Hc Hd; simpl.
  - destruct (knowledge ai !! i); [done|]. by intros [= <-].
  - destruct (knowledge ai !! i); [|by intros [= <-]].
    apply IH; [by apply clean_reevaluate_at|by apply apart_reevaluate_at].
Qed.

Lemma apart_add_knowledge cell n ai ai' :
  cell ∉ mines ai → clean ai → mines ai ## safes ai →
  Py.leaves (add_knowledge cell n ai) ai' → mines ai' ## safes ai'.
Proof.
  intros Hcell Hc Hd (ai3 & Hre & _ & Hres)%add_knowledge_leaves.
  apply resolve_keeps_sets in Hres as (_ & _ & _ & -> & ->).
  eapply apart_reevaluate; [| |exact Hre].
  - by apply clean_observe.
  - simpl. set_solver.
Qed.

Lemma apart_exec o ai ai' :
  admissible o ai → clean ai → mines ai ## safes ai →
  left_by (exec o ai) = Some ai' →
  clean ai' ∧ mines ai' ## safes ai'.
Proof.
  intros Ho Hc Hd. rewrite left_by_leaves. destruct o; simpl in *.
  - intros Hl. split; [by eapply clean_add_knowledge|].
    by eapply apart_add_knowledge.
  - intros [[= <-]|[? [=]]]. split; [by apply clean_mark_mine|].
    simpl. set_solver.
  - intros [[= <-]|[? [=]]]. split; [by apply clean_mark_safe|].
    simpl. set_solver.
  - by intros [[= <-]|[? [=]]].
  - by intros [[= <-]|[? [=]]].
Qed.

(** A call that is not admissible leaves its cell in both sets. *)
Lemma overlap_exec o ai ai' :
  ¬ admissible o ai → left_by (exec o ai) = Some ai' →
  ¬ mines ai' ## safes ai'.
Proof.
  rewrite left_by_leaves. destruct o; simpl; intros Ho.
  - apply dec_stable in Ho.
    intros (ai3 & Hre & _ & Hres)%add_knowledge_leaves.
    apply resolve_keeps_sets in Hres as (_ & _ & _ & Hm & Hs).
    apply grows_reevaluate in Hre as (_ & _ & _ & Hm3 & Hs3).
    simpl in Hm3, Hs3. rewrite Hm, Hs. set_solver.
  - apply dec_stable in Ho. intros [[= <-]|[? [=]]]. simpl. set_solver.
  - apply dec_stable in Ho. intros [[= <-]|[? [=]]]. simpl. set_solver.
  - by destruct Ho.
  - by destruct Ho.
Qed.

Lemma admissible_run_apart ops ai :
  clean ai → mines ai ## safes ai →
  (admissible_run ops ai
   ↔ ∀ k, ∃ ai_k, run (take k ops) ai = Some ai_k
                  ∧ mines ai_k ## safes ai_k).
Proof.
  revert ai. induction ops as [|o ops IH]; intros ai Hc Hd.
  - split; [|done]. intros _ k. exists ai. by rewrite take_nil.
  - destruct (exec_stops o ai) as [ai1 H1]. simpl. rewrite H1. split.
    + intros [Ho Hops] [|k]; [by exists ai|].
      destruct (apart_exec o ai ai1 Ho Hc Hd H1) as [Hc1 Hd1].
      simpl. rewrite H1. by apply (IH ai1 Hc1 Hd1).
    + intros Hall.
      assert (admissible o ai) as Ho.
      { destruct (decide (admissible o ai)) as [|Hn]; [done|].
        destruct (Hall 1%nat) as (ai_k & Hk & Hdk).
        cbn [take run] in Hk. rewrite H1 in Hk.
        destruct ops; cbn [take run] in Hk; injection Hk as <-;
          by destruct (overlap_exec o ai ai1 Hn H1). }
      split; [done|].
      destruct (apart_exec o ai ai1 Ho Hc Hd H1) as [Hc1 Hd1].
      apply (IH ai1 Hc1 Hd1). intros k.
      destruct (Hall (S k)) as (ai_k & Hk & Hdk).
      simpl in Hk. rewrite H1 in Hk. by exists ai_k.
Qed.

(** Calls that tell the truth about a layout are admissible. *)
Lemma truthful_admissible M h w ops ai :
  height ai = h → width ai = w →
  Forall (truthful M h w) ops → sound M ai → admissible_run ops ai.
Proof.
  revert ai. induction ops as [|o ops IH]; intros ai Hh Hw Hops Hai; [done|].
  apply Forall_cons in Hops as [Ho Hops]. simpl. split.
  - destruct Hai as (Hm & Hs & _). destruct o; simpl in *; set_solver.
  - destruct (left_by (exec o ai)) as [ai1|] eqn:H1; [|done].
    pose proof (grows_exec _ _ _ H1) as (Hh1 & Hw1 & _).
    apply IH; [congruence|congruence|done|].
    by eapply (sound_exec M h w).
Qed.

End Apart.

(** C3, amended.  In every sequence of calls, from every state, the sets
    [mines] and [safes] only grow: at every point of the sequence they
    contain what they contained before and are contained in what they are
    at the end.  In a sequence that starts on a new knowledge base they
    are disjoint at every point exactly when no call names a cell that is
    in the other set at the time of the call: [add_knowledge] and
    [mark_safe] are not called for a cell of [mines], and [mark_mine] is
    not called for a cell of [safes]; the counts given to [add_knowledge]
    do not matter.  Calls that tell the truth about one mine layout are of
    this kind. *)
Theorem mines_safes_grow_and_stay_apart (h w : Z) (ops : list Calls.op) :
  (∀ ai k, ∃ ai_k ai',
      Calls.run (take k ops) ai = Some ai_k
      ∧ Calls.run ops ai = Some ai'
      ∧ MinesweeperAI.mines ai ⊆ MinesweeperAI.mines ai_k
      ∧ MinesweeperAI.mines ai_k ⊆ MinesweeperAI.mines ai'
      ∧ MinesweeperAI.safes ai ⊆ MinesweeperAI.safes ai_k
      ∧ MinesweeperAI.safes ai_k ⊆ MinesweeperAI.safes ai')
  ∧ (Calls.admissible_run ops (MinesweeperAI.init h w)
     ↔ ∀ k, ∃ ai_k,
         Calls.run (take k ops) (MinesweeperAI.init h w) = Some ai_k
         ∧ MinesweeperAI.mines ai_k ## MinesweeperAI.safes ai_k)
  ∧ (∀ M, Forall (Layout.truthful M h w) ops →
          Calls.admissible_run ops (MinesweeperAI.init h w)).
Proof.
  split; [|split].
  - intros ai k.
    destruct (run_take_grows ops k ai)
      as (ai_k & ai' & Hk & Hrun & (_ & _ & _ & Hm1 & Hs1)
          & (_ & _ & _ & Hm2 & Hs2)).
    exists ai_k, ai'. by repeat split.
  - apply admissible_run_apart; [constructor|set_solver].
  - intros M Hops.
    by apply (truthful_admissible M h w); [| | |apply sound_init].
Qed.

Lemma mines_safes_grow_and_stay_apart_witness :
  ∃ ai,
    Calls.run (take 5 [Calls.AddKnowledge (0, 0) 9; Calls.MarkMine (2, 2);
                       Calls.AddKnowledge (0, 2) 0;
                       Calls.MakeSafeMove [(1, 1); (0, 1)];
                       Calls.MarkSafe (2, 0)])
              (MinesweeperAI.init 3 3) = Some ai
    ∧ MinesweeperAI.mines ai ## MinesweeperAI.safes ai.
Proof.
  destruct (mines_safes_grow_and_stay_apart 3 3
              [Calls.AddKnowledge (0, 0) 9; Calls.MarkMine (2, 2);
               Calls.AddKnowledge (0, 2) 0;
               Calls.MakeSafeMove [(1, 1); (0, 1)];
               Calls.MarkSafe (2, 0)]) as (_ & [Happ _] & _).
  apply Happ. apply (bool_decide_unpack _). vm_compute. exact I.
Defined.

(** * More properties of the code *)

(** X1. Every call of [add_knowledge], on every knowledge base, ends after
    finitely many loop turns: it returns, or [list.remove] raises
    [ValueError]; it raises nothing else. *)
Theorem add_knowledge_returns_or_raises_ValueError
    (cell : Cell) (n : Z) (ai : MinesweeperAI.t) :
  (∃ ai', MinesweeperAI.add_knowledge cell n ai = Py.Returned ai')
  ∨ (∃ ai', MinesweeperAI.add_knowledge cell n ai
            = Py.Raised Py.ValueError ai').
Proof.
  destruct (add_knowledge_eq cell n ai) as (ai3 & _ & Hlen & ->).
  destruct (resolve_stops (S (length (MinesweeperAI.knowledge ai))) ai3)
    as [ai' Hres]; [lia|].
  apply resolve_leaves in Hres as (st' & _ & [[-> _]|[-> _]]); eauto.
Qed.


(** X3. A call of [add_knowledge] that ends, by returning or by raising,
    has recorded the move and the cell as safe, has left the board size
    alone and has made the knowledge list longer by one sentence at most. *)
Theorem add_knowledge_records_the_move
    (cell : Cell) (n : Z) (ai : MinesweeperAI.t) :
  ∃ ai', Py.leaves (MinesweeperAI.add_knowledge cell n ai) ai'
         ∧ MinesweeperAI.moves_made ai' = {[cell]} ∪ MinesweeperAI.moves_made ai
         ∧ cell ∈ MinesweeperAI.safes ai'
         ∧ MinesweeperAI.height ai' = MinesweeperAI.height ai
         ∧ MinesweeperAI.width ai' = MinesweeperAI.width ai
         ∧ (length (MinesweeperAI.knowledge ai')
            ≤ S (length (MinesweeperAI.knowledge ai)))%nat.
Proof.
  destruct (add_knowledge_eq cell n ai) as (ai3 & Hre & Hlen & Heq).
  destruct (resolve_stops (S (length (MinesweeperAI.knowledge ai))) ai3)
    as [ai' Hres]; [lia|].
  exists ai'. rewrite Heq. split; [done|].
  destruct (resolve_keeps_sets _ _ _ Hres) as (Hh & Hw & Hmv & _ & Hs).
  pose proof (grows_reevaluate _ _ _ _ Hre) as (Hh3 & Hw3 & _ & _ & Hgs).
  split; [by rewrite Hmv, (reevaluate_keeps_moves _ _ _ _ Hre)|].
  split; [rewrite Hs; apply Hgs; simpl; set_solver|].
  split; [by rewrite Hh, Hh3|]. split; [by rewrite Hw, Hw3|].
  apply resolve_leaves in Hres as (st' & Hst & Hcase).
  pose proof (resolve_outer_shrinks _ _ _ _ Hst) as (Hsub & Hl & _).
  simpl in Hl. apply sublist_length in Hsub. simpl in Hsub.
  destruct Hcase as [[_ ->]|[_ ->]]; simpl; rewrite ?length_app; lia.
Qed.

(** X4. In every sequence of calls on a new knowledge base, whatever the
    arguments, no sentence of the knowledge list mentions a cell that is
    in [safes] or in [mines]. *)
Theorem resolved_cells_are_in_no_sentence (h w : Z) (ops : list Calls.op) :
  ∃ ai', Calls.run ops (MinesweeperAI.init h w) = Some ai'
         ∧ Knowledge.clean ai'.
Proof.
  destruct (run_grows ops (MinesweeperAI.init h w)) as (ai' & Hrun & _).
  exists ai'. split; [done|].
  eapply clean_run; [|exact Hrun]. constructor.
Qed.

(** X5. When the re-evaluation pass of [add_knowledge] is over, the
    sentence built from the observation is empty or its count decides
    none of its cells, and every cell it has lost is in [safes] or in
    [mines]; these two sets are not changed in the rest of the call. *)
Theorem observation_sentence_is_settled
    (cell : Cell) (n : Z) (ai : MinesweeperAI.t) :
  ∃ ai3 ai' N s,
    MinesweeperAI.reevaluate (S (length (MinesweeperAI.knowledge ai))) 0
      (MinesweeperAI.observe cell n ai) = Py.Returned ai3
    ∧ Py.leaves (MinesweeperAI.add_knowledge cell n ai) ai'
    ∧ last (MinesweeperAI.knowledge (MinesweeperAI.observe cell n ai)) = Some N
    ∧ last (MinesweeperAI.knowledge ai3) = Some s
    ∧ ¬ Layout.determined s
    ∧ Sentence.cells s ⊆ Sentence.cells N
    ∧ Sentence.cells N
      ⊆ Sentence.cells s ∪ MinesweeperAI.safes ai' ∪ MinesweeperAI.mines ai'
    ∧ MinesweeperAI.safes ai' = MinesweeperAI.safes ai3
    ∧ MinesweeperAI.mines ai' = MinesweeperAI.mines ai3.
Proof.
  destruct (add_knowledge_eq cell n ai) as (ai3 & Hre & Hlen & Heq).
  destruct (resolve_stops (S (length (MinesweeperAI.knowledge ai))) ai3)
    as [ai' Hres]; [lia|].
  destruct (observation_settled cell n ai ai3 Hre)
    as (N & s & HN & Hs & Hset & H1 & H2).
  destruct (resolve_keeps_sets _ _ _ Hres) as (_ & _ & _ & Hm' & Hs').
  exists ai3, ai', N, s. rewrite Heq, Hm', Hs'. by repeat split.
Qed.

(** X6. Zero clears the neighbourhood.  On a knowledge base that is sound
    for a mine layout, [add_knowledge(cell, 0)] for a cell that is no mine
    and has no mine among its neighbours leaves every neighbour in bounds,
    and the cell, in [safes]. *)
Theorem zero_clears_the_neighbourhood
    (M : gset Cell) (cell : Cell) (ai : MinesweeperAI.t) :
  Layout.sound M ai → cell ∉ M →
  Layout.mines_around M (MinesweeperAI.height ai) (MinesweeperAI.width ai) cell
  = 0 →
  ∃ ai', Py.leaves (MinesweeperAI.add_knowledge cell 0 ai) ai'
         ∧ ∀ c, c ∈ MinesweeperAI.around cell →
                Layout.in_bounds (MinesweeperAI.height ai)
                                 (MinesweeperAI.width ai) c →
                c ∈ MinesweeperAI.safes ai'.
Proof.
  intros Hai Hc Hz.
  destruct (truthful_observation M cell ai Hai Hc)
    as (ai2 & ai3 & ai' & N & s & Hai2 & HN & Hleaves & Hs' & Hm' & Hai3
        & Hgs & Hgm & Hholds & Hset & H1 & H2).
  rewrite Hz in Hleaves, HN. exists ai'. split; [done|].
  assert (cell ∈ MinesweeperAI.safes ai2) as Hcell.
  { rewrite Hai2. simpl. set_solver. }
  assert (∀ c, c ∈ MinesweeperAI.around cell →
               Layout.in_bounds (MinesweeperAI.height ai)
                                (MinesweeperAI.width ai) c →
               c ∉ M) as Hfree.
  { intros c Hin Hb. destruct (decide (c = cell)) as [->|Hne]; [done|].
    by eapply mines_around_zero. }
  assert (Sentence.cells N ## M) as HNM.
  { intros c HcN HcM. rewrite HN in HcN.
    apply new_sentence_unknown in HcN as (Hin & Hb & _ & _).
    rewrite Hai2 in Hb. simpl in Hb. by apply (Hfree c). }
  assert (Sentence.cells s = ∅) as Hempty.
  { destruct (decide (Sentence.cells s = ∅)) as [|Hne]; [done|].
    exfalso. apply Hset. split; [done|]. left.
    unfold Layout.holds in Hholds. rewrite Hholds.
    assert (Sentence.cells s ∩ M = ∅) as -> by set_solver.
    by rewrite size_empty. }
  destruct Hai3 as (Hm3 & Hs3 & _).
  intros c Hin Hb. rewrite Hs'.
  destruct (decide (c ∈ Sentence.cells N)) as [HcN|HcN].
  - specialize (Hfree c Hin Hb). set_solver.
  - apply Hgs. rewrite HN, new_sentence_cells in HcN.
    rewrite elem_of_list_to_set, list_elem_of_filter in HcN.
    destruct (decide (c ∈ MinesweeperAI.safes ai2)) as [|Hns]; [done|].
    exfalso. apply HcN. split; [|done].
    split; [by rewrite Hai2|]. split; [done|].
    intros Hcm. apply (Hfree c Hin Hb). apply Hm3, Hgm, Hcm.
Qed.

Lemma zero_clears_the_neighbourhood_witness :
  ∃ ai', Py.leaves (MinesweeperAI.add_knowledge (2, 2) 0
                      (MinesweeperAI.init 3 3)) ai'
         ∧ ∀ c, c ∈ MinesweeperAI.around (2, 2) →
                Layout.in_bounds 3 3 c → c ∈ MinesweeperAI.safes ai'.
Proof.
  apply (zero_clears_the_neighbourhood {[(0, 0)]} (2, 2)
           (MinesweeperAI.init 3 3)).
  - repeat split; simpl; [set_solver|set_solver|constructor].
  - apply (bool_decide_unpack _). vm_compute. exact I.
  - vm_compute. reflexivity.
Defined.

(** X7. On a knowledge base that is sound for a mine layout,
    [add_knowledge] for a cell that is no mine, with its number of
    neighbouring mines, when every neighbour in bounds is a mine or
    already known safe, leaves every neighbouring mine in [mines]. *)
Theorem all_unknown_neighbours_mines
    (M : gset Cell) (cell : Cell) (ai : MinesweeperAI.t) :
  Layout.sound M ai → cell ∉ M →
  (∀ c, c ∈ MinesweeperAI.around cell → c ≠ cell →
        Layout.in_bounds (MinesweeperAI.height ai) (MinesweeperAI.width ai) c →
        c ∈ M ∨ c ∈ MinesweeperAI.safes ai) →
  ∃ ai', Py.leaves
           (MinesweeperAI.add_knowledge cell
              (Layout.mines_around M (MinesweeperAI.height ai)
                 (MinesweeperAI.width ai) cell) ai) ai'
         ∧ ∀ c, c ∈ MinesweeperAI.around cell →
                Layout.in_bounds (MinesweeperAI.height ai)
                                 (MinesweeperAI.width ai) c →
                c ∈ M → c ∈ MinesweeperAI.mines ai'.
Proof.
  intros Hai Hc Hall.
  destruct (truthful_observation M cell ai Hai Hc)
    as (ai2 & ai3 & ai' & N & s & Hai2 & HN & Hleaves & Hs' & Hm' & Hai3
        & Hgs & Hgm & Hholds & Hset & H1 & H2).
  exists ai'. split; [done|].
  assert (MinesweeperAI.safes ai2 = {[cell]} ∪ MinesweeperAI.safes ai) as Hs2.
  { by rewrite Hai2. }
  assert (Sentence.cells N ⊆ M) as HNM.
  { intros c HcN. rewrite HN in HcN.
    apply new_sentence_unknown in HcN as (Hin & Hb & Hns & _).
    rewrite Hai2 in Hb. simpl in Hb.
    destruct (Hall c Hin) as [?|?]; [set_solver|done|done|set_solver]. }
  assert (Sentence.cells s = ∅) as Hempty.
  { destruct (decide (Sentence.cells s = ∅)) as [|Hne]; [done|].
    exfalso. apply Hset. split; [done|]. right.
    unfold Layout.holds in Hholds. rewrite Hholds. unfold Py.len.
    by assert (Sentence.cells s ∩ M = Sentence.cells s) as -> by set_solver. }
  destruct Hai3 as (Hm3 & Hs3 & _).
  intros c Hin Hb HcM. rewrite Hm'.
  destruct (decide (c ∈ Sentence.cells N)) as [HcN|HcN].
  - set_solver.
  - apply Hgm. rewrite HN, new_sentence_cells in HcN.
    rewrite elem_of_list_to_set, list_elem_of_filter in HcN.
    destruct (decide (c ∈ MinesweeperAI.mines ai2)) as [|Hnm]; [done|].
    exfalso. apply HcN. split; [|done].
    split; [by rewrite Hai2|]. split; [|done].
    intros Hcs. apply (Hs3 c); [by apply Hgs|done].
Qed.

Lemma all_unknown_neighbours_mines_witness :
  ∃ ai', Py.leaves (MinesweeperAI.add_knowledge (0, 0)
                      (Layout.mines_around {[(0, 1)]} 1 2 (0, 0))
                      (MinesweeperAI.init 1 2)) ai'
         ∧ ∀ c, c ∈ MinesweeperAI.around (0, 0) →
                Layout.in_bounds 1 2 c → c ∈ ({[(0, 1)]} : gset Cell) →
                c ∈ MinesweeperAI.mines ai'.
Proof.
  apply (all_unknown_neighbours_mines {[(0, 1)]} (0, 0)
           (MinesweeperAI.init 1 2)).
  - repeat split; simpl; [set_solver|set_solver|constructor].
  - apply (bool_decide_unpack _). vm_compute. exact I.
  - intros [i j] Hin Hne [[? ?] [? ?]]. simpl in *. left.
    assert (i = 0) as -> by lia.
    assert (j = 1) as ->; [|set_solver].
    destruct (decide (j = 0)) as [->|?]; [done|lia].
Defined.

Section Moves.

Import MinesweeperAI Layout Knowledge.
Implicit Types (ai : MinesweeperAI.t) (s : Sentence) (c : Cell).

Lemma elem_of_range n x : x ∈ Py.range n ↔ 0 <= x < n.
Proof.
  unfold Py.range. change (map Z.of_nat ?l) with (Z.of_nat <$> l).
  rewrite list_elem_of_fmap. split.
  - intros (k & -> & Hk%elem_of_seq). lia.
  - intros Hx. exists (Z.to_nat x). split; [lia|]. apply elem_of_seq. lia.
Qed.

(** The list [randSet] of [make_random_move]. *)
Lemma elem_of_randSet ai c :
  c ∈ (i ← Py.range (height ai);
       j ← Py.range (width ai);
       if bool_decide ((i, j) ∉ mines ai) && bool_decide ((i, j) ∉ moves_made ai)
       then [(i, j)] else [])
  ↔ eligible ai c.
Proof.
  unfold eligible, in_bounds. rewrite list_elem_of_bind. split.
  - intros (i & (j & Hc & Hj%elem_of_range)%list_elem_of_bind
              & Hi%elem_of_range).
    destruct (bool_decide ((i, j) ∉ mines ai)) eqn:H1; simpl in Hc;
      [|by apply elem_of_nil in Hc].
    destruct (bool_decide ((i, j) ∉ moves_made ai)) eqn:H2; simpl in Hc;
      [|by apply elem_of_nil in Hc].
    apply list_elem_of_singleton in Hc as ->.
    apply bool_decide_eq_true_1 in H1, H2. done.
  - destruct c as [i j]. simpl. intros ([Hi Hj] & H1 & H2).
    exists i. split; [|by apply elem_of_range].
    apply list_elem_of_bind. exists j. split; [|by apply elem_of_range].
    rewrite !bool_decide_eq_true_2 by done. simpl.
    by apply list_elem_of_singleton.
Qed.

Lemma sentence_mark_mine_safe_comm s c1 c2 :
  c1 ≠ c2 →
  Sentence.mark_mine c1 (Sentence.mark_safe c2 s)
  = Sentence.mark_safe c2 (Sentence.mark_mine c1 s).
Proof.
  intros Hne.
  repeat (rewrite ?sentence_mark_mine_eq, ?sentence_mark_safe_eq;
          cbn [Sentence.cells Sentence.count]).
  f_equal; [set_solver|].
  repeat case_decide; try lia; set_solver.
Qed.

End Moves.

(** X8. Marking two cells safe, or two cells as mines, gives the same
    knowledge base in either order, and so does marking one cell as a mine
    and a different cell safe.  For one and the same cell of a sentence the
    order matters: [mark_safe] first leaves the count, [mark_mine] first
    lowers it. *)
Theorem marks_commute
    (ai : MinesweeperAI.t) (s : Sentence) (c1 c2 : Cell) :
  MinesweeperAI.mark_safe c1 (MinesweeperAI.mark_safe c2 ai)
  = MinesweeperAI.mark_safe c2 (MinesweeperAI.mark_safe c1 ai)
  ∧ MinesweeperAI.mark_mine c1 (MinesweeperAI.mark_mine c2 ai)
    = MinesweeperAI.mark_mine c2 (MinesweeperAI.mark_mine c1 ai)
  ∧ (c1 ≠ c2 →
     MinesweeperAI.mark_mine c1 (MinesweeperAI.mark_safe c2 ai)
     = MinesweeperAI.mark_safe c2 (MinesweeperAI.mark_mine c1 ai))
  ∧ (c1 ∈ Sentence.cells s →
     Sentence.count (Sentence.mark_mine c1 (Sentence.mark_safe c1 s))
     = Sentence.count s
     ∧ Sentence.count (Sentence.mark_safe c1 (Sentence.mark_mine c1 s))
       = Sentence.count s - 1).
Proof.
  split; [apply ai_mark_safe_comm|]. split; [apply ai_mark_mine_comm|]. split.
  - intros Hne. unfold MinesweeperAI.mark_mine, MinesweeperAI.mark_safe.
    simpl. f_equal. rewrite !map_map. apply map_ext. intros s'.
    by apply sentence_mark_mine_safe_comm.
  - intros Hin. rewrite (sentence_mark_mine_notin (Sentence.mark_safe c1 s))
      by apply sentence_mark_safe_gone.
    rewrite (sentence_mark_safe_notin (Sentence.mark_mine c1 s))
      by apply sentence_mark_mine_gone.
    by rewrite sentence_mark_safe_in, sentence_mark_mine_in.
Qed.

Lemma marks_commute_witness :
  let ai := MinesweeperAI.AI 3 3 ∅ ∅ ∅
              [Sentence.Sentence {[(0, 0); (0, 1); (1, 1)]} 2] in
  MinesweeperAI.mark_mine (0, 0) (MinesweeperAI.mark_safe (0, 1) ai)
  = MinesweeperAI.mark_safe (0, 1) (MinesweeperAI.mark_mine (0, 0) ai)
  ∧ Sentence.count
      (Sentence.mark_mine (0, 0)
         (Sentence.mark_safe (0, 0)
            (Sentence.Sentence {[(0, 0); (0, 1); (1, 1)]} 2))) = 2
  ∧ Sentence.count
      (Sentence.mark_safe (0, 0)
         (Sentence.mark_mine (0, 0)
            (Sentence.Sentence {[(0, 0); (0, 1); (1, 1)]} 2))) = 2 - 1.
Proof.
  intros ai.
  destruct (marks_commute ai (Sentence.Sentence {[(0, 0); (0, 1); (1, 1)]} 2)
              (0, 0) (0, 1)) as (_ & _ & Hms & _).
  destruct (marks_commute ai (Sentence.Sentence {[(0, 0); (0, 1); (1, 1)]} 2)
              (0, 0) (0, 0)) as (_ & _ & _ & Hsame).
  split; [apply Hms; discriminate|].
  apply Hsame. apply (bool_decide_unpack _). vm_compute. exact I.
Defined.

(** X9. A loop that marks every cell of a set safe, in whatever order,
    takes exactly these cells out of every sentence, leaves every count
    and adds the set to [safes].  A loop that marks every cell of a set as
    a mine takes these cells out of every sentence, lowers each count by
    the number of cells taken out of that sentence and adds the set to
    [mines]. *)
Theorem marking_a_set
    (S : gset Cell) (l : list Cell) (ai : MinesweeperAI.t) :
  NoDup l → (∀ c, c ∈ l ↔ c ∈ S) →
  foldl (λ a c, MinesweeperAI.mark_safe c a) ai l
  = MinesweeperAI.AI (MinesweeperAI.height ai) (MinesweeperAI.width ai)
      (MinesweeperAI.moves_made ai) (MinesweeperAI.mines ai)
      (S ∪ MinesweeperAI.safes ai)
      (map (λ s, Sentence.Sentence (Sentence.cells s ∖ S) (Sentence.count s))
           (MinesweeperAI.knowledge ai))
  ∧ foldl (λ a c, MinesweeperAI.mark_mine c a) ai l
    = MinesweeperAI.AI (MinesweeperAI.height ai) (MinesweeperAI.width ai)
        (MinesweeperAI.moves_made ai) (S ∪ MinesweeperAI.mines ai)
        (MinesweeperAI.safes ai)
        (map (λ s, Sentence.Sentence
                     (Sentence.cells s ∖ S)
                     (Sentence.count s
                      - Z.of_nat (size (Sentence.cells s ∩ S))))
             (MinesweeperAI.knowledge ai)).
Proof.
  intros Hnd Hl.
  rewrite (mark_safe_all_any_order S l ai Hnd Hl).
  rewrite (mark_mine_all_any_order S l ai Hnd Hl).
  split; [apply mark_safe_all_eq|apply mark_mine_all_eq].
Qed.

Lemma marking_a_set_witness :
  let ai := MinesweeperAI.AI 3 3 ∅ ∅ ∅
              [Sentence.Sentence {[(0, 0); (0, 1); (1, 1)]} 2] in
  foldl (λ a c, MinesweeperAI.mark_mine c a) ai [(1, 1); (0, 0)]
  = MinesweeperAI.AI 3 3 ∅ ({[(0, 0); (1, 1)]} ∪ ∅) ∅
      (map (λ s, Sentence.Sentence
                   (Sentence.cells s ∖ {[(0, 0); (1, 1)]})
                   (Sentence.count s
                    - Z.of_nat (size (Sentence.cells s ∩ {[(0, 0); (1, 1)]}))))
           [Sentence.Sentence {[(0, 0); (0, 1); (1, 1)]} 2]).
Proof.
  intros ai.
  apply (marking_a_set {[(0, 0); (1, 1)]} [(1, 1); (0, 0)] ai).
  - apply (bool_decide_unpack _). vm_compute. exact I.
  - intros c. rewrite !elem_of_cons, elem_of_nil. set_solver.
Defined.

(** X10. [make_safe_move] loops over the set [safes] in an order that the
    program does not fix.  In every order in which the set can be gone
    through, the cell returned is in [safes], is not in [moves_made] and
    is the first such cell of that order; [None] is returned exactly when
    every known safe cell has been played.  Which cell is returned is up
    to the order: every safe cell that has not been played is the one
    returned in some order. *)
Theorem make_safe_move_spec (ai : MinesweeperAI.t) (order : list Cell) :
  Py.iterates (MinesweeperAI.safes ai) order →
  (∀ c, MinesweeperAI.make_safe_move order ai = Some c →
        c ∈ MinesweeperAI.safes ai
        ∧ (c ∉ MinesweeperAI.moves_made ai)
        ∧ ∃ l1 l2, order = l1 ++ c :: l2
                   ∧ ∀ x, x ∈ l1 → x ∈ MinesweeperAI.moves_made ai)
  ∧ (MinesweeperAI.make_safe_move order ai = None
     ↔ MinesweeperAI.safes ai ⊆ MinesweeperAI.moves_made ai)
  ∧ (∀ c, c ∈ MinesweeperAI.safes ai →
          c ∉ MinesweeperAI.moves_made ai →
          ∃ order', Py.iterates (MinesweeperAI.safes ai) order'
                    ∧ MinesweeperAI.make_safe_move order' ai = Some c).
Proof.
  intros [Hnd Hset]. unfold MinesweeperAI.make_safe_move.
  assert (∀ x, x ∈ order ↔ x ∈ MinesweeperAI.safes ai) as Hin.
  { intros x. rewrite <- Hset. by rewrite elem_of_list_to_set. }
  split; [|split].
  - intros c Hc. split; [|split].
    + apply head_Some_elem_of, list_elem_of_filter in Hc as [_ Hc].
      by apply Hin.
    + by apply head_Some_elem_of, list_elem_of_filter in Hc as [Hc _].
    + clear Hnd Hset Hin. induction order as [|x l IH]; [done|].
      rewrite filter_cons in Hc.
      destruct (decide (x ∉ MinesweeperAI.moves_made ai)) as [Hx|Hx].
      * injection Hc as ->. exists [], l. split; [done|].
        by intros y Hy%elem_of_nil.
      * destruct (IH Hc) as (l1 & l2 & -> & Hl1).
        exists (x :: l1), l2. split; [done|].
        intros y [->|Hy]%elem_of_cons; [by apply dec_stable|by apply Hl1].
  - rewrite head_None. split.
    + intros Hnil c Hc.
      destruct (decide (c ∈ MinesweeperAI.moves_made ai)) as [|Hn]; [done|].
      exfalso.
      apply (filter_nil_not_elem_of _ _ c Hnil Hn). by apply Hin.
    + intros Hsub.
      destruct (filter _ order) as [|c l] eqn:Hf; [done|].
      assert (c ∈ filter (λ x, x ∉ MinesweeperAI.moves_made ai) order)
        as Hc by (rewrite Hf; by left).
      apply list_elem_of_filter in Hc as [Hm Hs%Hin]. set_solver.
  - intros c Hc Hm.
    exists (c :: elements (MinesweeperAI.safes ai ∖ {[c]})). split; [split|].
    + apply NoDup_cons. split; [|apply NoDup_elements].
      rewrite elem_of_elements. set_solver.
    + rewrite list_to_set_cons, list_to_set_elements_L.
      apply set_eq. intros x. rewrite elem_of_union, elem_of_singleton,
        elem_of_difference, elem_of_singleton.
      destruct (decide (x = c)) as [->|]; naive_solver.
    + rewrite filter_cons. by rewrite decide_True.
Qed.

Lemma make_safe_move_spec_witness :
  let ai := MinesweeperAI.AI 3 3 {[(0, 0)]} ∅
              {[(0, 0); (0, 1); (1, 0); (1, 1)]} [] in
  MinesweeperAI.make_safe_move [(0, 0); (1, 1); (0, 1); (1, 0)] ai
  = Some (1, 1)
  ∧ (1, 1) ∈ MinesweeperAI.safes ai
  ∧ ((1, 1) ∉ MinesweeperAI.moves_made ai)
  ∧ ∃ l1 l2, [(0, 0); (1, 1); (0, 1); (1, 0)] = l1 ++ (1, 1) :: l2
             ∧ ∀ x, x ∈ l1 → x ∈ MinesweeperAI.moves_made ai.
Proof.
  intros ai.
  assert (MinesweeperAI.make_safe_move [(0, 0); (1, 1); (0, 1); (1, 0)] ai
          = Some (1, 1)) as Hmove by (vm_compute; reflexivity).
  split; [exact Hmove|].
  assert (Py.iterates (MinesweeperAI.safes ai)
            [(0, 0); (1, 1); (0, 1); (1, 0)]) as Hord.
  { split; apply (bool_decide_unpack _); vm_compute; exact I. }
  exact (proj1 (make_safe_move_spec ai _ Hord) (1, 1) Hmove).
Defined.

(** X11. [make_random_move] returns only cells that are in bounds, not in
    [mines] and not in [moves_made]; it returns [None] exactly when there
    is no such cell; and every such cell is returned for some draw of
    [random.choice]. *)
Theorem make_random_move_spec (ai : MinesweeperAI.t) :
  (∀ pick c, MinesweeperAI.make_random_move pick ai = Some c →
             Knowledge.eligible ai c)
  ∧ (∀ pick, MinesweeperAI.make_random_move pick ai = None
             ↔ ∀ c, ¬ Knowledge.eligible ai c)
  ∧ (∀ c, Knowledge.eligible ai c →
          ∃ pick, MinesweeperAI.make_random_move pick ai = Some c).
Proof.
  unfold MinesweeperAI.make_random_move.
  pose proof (elem_of_randSet ai) as Hel.
  destruct (_ ≫= _) as [|c0 l] eqn:Hr.
  - split; [done|]. split.
    + intros _. split; [|done]. intros _ c Hc%Hel. by apply elem_of_nil in Hc.
    + intros c Hc%Hel. by apply elem_of_nil in Hc.
  - split; [|split].
    + intros pick c Hc. apply Hel. eapply list_elem_of_lookup_2. exact Hc.
    + intros pick. split.
      * intros Hnone. apply lookup_ge_None_1 in Hnone.
        pose proof (Nat.mod_upper_bound pick (length (c0 :: l))).
        simpl in *. lia.
      * intros Hno. exfalso. apply (Hno c0), Hel. by left.
    + intros c Hc%Hel. apply list_elem_of_lookup_1 in Hc as [i Hi].
      exists i. rewrite Nat.mod_small; [done|].
      by apply lookup_lt_Some in Hi.
Qed.

Lemma make_random_move_spec_witness :
  let ai := MinesweeperAI.AI 1 3 {[(0, 0)]} {[(0, 2)]} {[(0, 0)]} [] in
  MinesweeperAI.make_random_move 7 ai = Some (0, 1)
  ∧ Knowledge.eligible ai (0, 1).
Proof.
  intros ai.
  assert (MinesweeperAI.make_random_move 7 ai = Some (0, 1)) as Hmove
    by (vm_compute; reflexivity).
  split; [exact Hmove|].
  exact (proj1 (make_random_move_spec ai) 7%nat (0, 1) Hmove).
Defined.

(** X12. A sentence that is true of a mine layout has its count between 0
    and its number of cells, reports only mines as known mines and no mine
    as known safe, stays true when a mine is marked as a mine or another
    cell as safe, and gives a true sentence when a true sentence on a
    subset of its cells is taken away from it. *)
Theorem true_sentences_stay_true (M : gset Cell) (s : Sentence) :
  Layout.holds M s →
  0 <= Sentence.count s <= Py.len (Sentence.cells s)
  ∧ Sentence.known_mines s ⊆ M
  ∧ Sentence.known_safes s ## M
  ∧ (∀ c, c ∈ M → Layout.holds M (Sentence.mark_mine c s))
  ∧ (∀ c, c ∉ M → Layout.holds M (Sentence.mark_safe c s))
  ∧ (∀ o, Layout.holds M o → Sentence.cells o ⊆ Sentence.cells s →
          Layout.holds M (Knowledge.difference s o)).
Proof.
  intros Hs. split; [by apply (holds_count_bounds M)|].
  split; [by apply known_mines_sound|]. split; [by apply known_safes_sound|].
  split; [intros c Hc; by apply holds_mark_mine|].
  split; [intros c Hc; by apply holds_mark_safe|].
  intros o Ho Hsub. by apply holds_difference.
Qed.

Lemma true_sentences_stay_true_witness :
  let s := Sentence.Sentence {[(0, 0); (0, 1)]} 2 in
  0 <= Sentence.count s <= Py.len (Sentence.cells s)
  ∧ Sentence.known_mines s ⊆ ({[(0, 0); (0, 1); (2, 2)]} : gset Cell).
Proof.
  intros s.
  destruct (true_sentences_stay_true {[(0, 0); (0, 1); (2, 2)]} s)
    as (Hb & Hm & _); [vm_compute; reflexivity|].
  by split.
Defined.

(** X13. In a sequence of calls on a new knowledge base that tells the
    truth about one mine layout, every sentence of the knowledge list is
    true of the layout at the end of the sequence, and has its count
    between 0 and its number of cells. *)
Theorem truthful_calls_keep_sentences_true
    (M : gset Cell) (h w : Z) (ops : list Calls.op) :
  Forall (Layout.truthful M h w) ops →
  ∃ ai', Calls.run ops (MinesweeperAI.init h w) = Some ai'
         ∧ Forall (λ s, Layout.holds M s
                        ∧ 0 <= Sentence.count s <= Py.len (Sentence.cells s))
                  (MinesweeperAI.knowledge ai').
Proof.
  intros Hops.
  destruct (run_grows ops (MinesweeperAI.init h w)) as (ai' & Hrun & _).
  exists ai'. split; [done|].
  pose proof (sound_run M h w ops (MinesweeperAI.init h w) ai'
                eq_refl eq_refl Hops (sound_init M h w) Hrun) as (_ & _ & Hk).
  eapply Forall_impl; [exact Hk|]. intros s Hs.
  split; [done|by eapply holds_count_bounds].
Qed.

Lemma truthful_calls_keep_sentences_true_witness :
  ∃ ai', Calls.run [Calls.AddKnowledge (0, 0) 1; Calls.AddKnowledge (0, 2) 1;
                    Calls.AddKnowledge (0, 1) 1]
                   (MinesweeperAI.init 3 3) = Some ai'
         ∧ Forall (λ s, Layout.holds {[(1, 1)]} s
                        ∧ 0 <= Sentence.count s <= Py.len (Sentence.cells s))
                  (MinesweeperAI.knowledge ai').
Proof.
  apply (truthful_calls_keep_sentences_true {[(1, 1)]} 3 3).
  repeat (apply Forall_cons; split); try apply Forall_nil; simpl;
    try (split; [|vm_compute; reflexivity]);
    apply (bool_decide_unpack _); vm_compute; exact I.
Defined.

(** X14. No sentence reports a cell both as a known mine and as a known
    safe cell: when both tests of the two queries succeed the sentence has
    no cells. *)
Theorem known_mines_and_known_safes_apart (s : Sentence) :
  Sentence.known_mines s ## Sentence.known_safes s.
Proof.
  unfold Sentence.known_mines, Sentence.known_safes, Py.len.
  case_decide as Hlen; [|set_solver]. case_decide as H0; [|set_solver].
  assert (size (Sentence.cells s) = 0%nat) as Hz%size_empty_inv by lia.
  set_solver.
Qed.

(** ** The field of a constructed game *)

Section FieldFacts.

Import Minesweeper Layout Field.
Implicit Types (b : list (list bool)) (g : Minesweeper.t) (c : Cell).

Lemma range_length n : length (Py.range n) = Z.to_nat n.
Proof. unfold Py.range. by rewrite length_map, length_seq. Qed.

Lemma shaped_empty_board h w : shaped h w (empty_board h w).
Proof.
  unfold shaped, empty_board. split.
  - by rewrite length_map, range_length.
  - apply Forall_forall. intros row Hrow.
    change (map ?f ?l) with (f <$> l) in Hrow.
    apply list_elem_of_fmap in Hrow as (i & -> & _).
    by rewrite length_map, range_length.
Qed.

Lemma board_set_shaped h w b b' i j :
  0 <= i → 0 <= j → shaped h w b → board_set b i j = Some b' → shaped h w b'.
Proof.
  intros Hi Hj [Hlen Hrows]. unfold board_set.
  rewrite index_nonneg by done.
  destruct (b !! Z.to_nat i) as [row|] eqn:Hrow; simpl; [|done].
  destruct (Py.set_index row j true) as [row'|] eqn:Hset; simpl; [|done].
  apply set_index_nonneg in Hset as [Hlt ->]; [|done].
  intros [Hlt' ->]%set_index_nonneg; [|done].
  split; [by rewrite length_insert|].
  apply Forall_insert; [done|]. rewrite length_insert.
  eapply (Forall_lookup_1 _ _ _ _ Hrows Hrow).
Qed.

(** What the placement loop keeps besides [placed]: the shape of the
    board and the empty set of found mines. *)
Lemma place_mines_shaped h w draws n g g' :
  placed h w g → shaped h w (board g) → mines_found g = ∅ →
  place_mines draws n g = Py.Returned g' →
  shaped h w (board g') ∧ mines_found g' = ∅.
Proof.
  revert g. induction draws as [|[di dj] draws IH]; intros g Hg Hsh Hmf; simpl.
  { case_decide; [|done]. by intros [= <-]. }
  case_decide; [by intros [= <-]|].
  pose proof Hg as (Hh & Hw & Hin & Hb).
  destruct (randrange (height g) di) as [i|] eqn:Hi; [|done].
  destruct (randrange (width g) dj) as [j|] eqn:Hj; [|done].
  apply randrange_range in Hi, Hj.
  destruct (board_get (board g) i j) as [[|]|]; [by apply IH| |done].
  destruct (board_set (board g) i j) as [b'|] eqn:Hset; [|done].
  apply IH; simpl; [|by eapply board_set_shaped; eauto; lia|done].
  apply placed_step; [done| |done]. rewrite <- Hh, <- Hw. split; simpl; lia.
Qed.

(** The placement loop raises no [IndexError]. *)
Lemma place_mines_raises h w draws n g e g' :
  placed h w g → place_mines draws n g = Py.Raised e g' → e = Py.ValueError.
Proof.
  revert g. induction draws as [|[di dj] draws IH]; intros g Hg; simpl.
  { by case_decide. }
  case_decide; [done|].
  pose proof Hg as (Hh & Hw & Hin & Hb).
  destruct (randrange (height g) di) as [i|] eqn:Hi; [|by intros [= <- _]].
  destruct (randrange (width g) dj) as [j|] eqn:Hj; [|by intros [= <- _]].
  apply randrange_range in Hi, Hj.
  assert (in_bounds (height g) (width g) (i, j)) as Hij by done.
  pose proof (Hb (i, j) Hij) as Hget. unfold is_mine in Hget.
  simpl in Hget. rewrite Hget.
  case_bool_decide as Hmine; [by apply IH|].
  destruct (board_set_is_Some (board g) i j _ ltac:(lia) ltac:(lia) Hget)
    as [b' Hset].
  rewrite Hset. apply IH. apply placed_step; [done| |done].
  by rewrite <- Hh, <- Hw.
Qed.

Lemma elem_of_grid h w c : c ∈ grid h w ↔ in_bounds h w c.
Proof.
  unfold grid, in_bounds. rewrite list_elem_of_bind. split.
  - intros (i & (j & Hc & Hj%elem_of_range)%list_elem_of_bind
              & Hi%elem_of_range).
    by apply list_elem_of_singleton in Hc as ->.
  - destruct c as [i j]. simpl. intros [Hi Hj].
    exists i. split; [|by apply elem_of_range].
    apply list_elem_of_bind. exists j. split; [|by apply elem_of_range].
    by apply list_elem_of_singleton.
Qed.

Lemma bind_const_length {A B} (f : A → list B) (m : nat) (l : list A) :
  (∀ x, length (f x) = m) → length (l ≫= f) = (length l * m)%nat.
Proof.
  intros Hf. induction l as [|x l IH]; csimpl; [done|].
  rewrite length_app, Hf, IH. lia.
Qed.

Lemma grid_length h w : length (grid h w) = (Z.to_nat h * Z.to_nat w)%nat.
Proof.
  unfold grid. rewrite (bind_const_length _ (Z.to_nat w)).
  - by rewrite range_length.
  - intros i. rewrite (bind_const_length _ 1%nat); [|done].
    rewrite range_length. lia.
Qed.

Lemma size_list_to_set_le (l : list Cell) :
  (size (list_to_set l : gset Cell) ≤ length l)%nat.
Proof.
  induction l as [|x l IH].
  - rewrite list_to_set_nil, size_empty. done.
  - rewrite list_to_set_cons, size_union_alt, size_singleton. simpl.
    assert (size ((list_to_set l : gset Cell) ∖ {[x]})
            ≤ size (list_to_set l : gset Cell))%nat.
    { apply subseteq_size. set_solver. }
    lia.
Qed.

(** A set of cells in bounds has no more cells than the field. *)
Lemma size_in_bounds (h w : Z) (X : gset Cell) :
  (∀ c, c ∈ X → in_bounds h w c) →
  (size X ≤ Z.to_nat h * Z.to_nat w)%nat.
Proof.
  intros HX. rewrite <- grid_length.
  etrans; [|apply size_list_to_set_le].
  apply subseteq_size. intros c Hc.
  apply elem_of_list_to_set, elem_of_grid. by apply HX.
Qed.

(** Python's index on a list of length [n], for an index from [-n] up to
    [n - 1] and for an index outside. *)
Lemma index_wrap {A} (l : list A) n i :
  length l = Z.to_nat n → - n <= i < n →
  0 <= i mod n < n ∧ Py.index l i = l !! Z.to_nat (i mod n).
Proof.
  intros Hlen Hi. assert (0 < n) as Hn by lia.
  split; [by apply Z.mod_pos_bound|].
  unfold Py.index. destruct (decide (0 <= i)) as [H0|H0].
  - by rewrite Z.mod_small by lia.
  - rewrite decide_True by lia. do 2 f_equal.
    rewrite Hlen, Z2Nat.id by lia.
    apply Z.mod_unique with (q := -1); lia.
Qed.

Lemma index_outside {A} (l : list A) n i :
  length l = Z.to_nat n → ¬ (- n <= i < n) → Py.index l i = None.
Proof.
  intros Hlen Hi. unfold Py.index. destruct (decide (0 <= i)) as [H0|H0].
  - apply lookup_ge_None_2. lia.
  - case_decide; [|done]. lia.
Qed.

Lemma around_length cell : length (Minesweeper.around cell) = 9%nat.
Proof.
  destruct cell as [i j].
  change (Minesweeper.around (i, j)) with (MinesweeperAI.around (i, j)).
  by rewrite around_cells.
Qed.

Lemma mines_around_bounds M h w cell : 0 <= mines_around M h w cell <= 8.
Proof.
  unfold mines_around.
  pose proof (length_filter_lt
                (λ c, c ≠ cell ∧ in_bounds h w c ∧ c ∈ M)
                (Minesweeper.around cell) cell
                (around_self cell) ltac:(tauto)) as Hlt.
  rewrite around_length in Hlt. lia.
Qed.

End FieldFacts.

(** X15. On a constructed game [nearby_mines] raises no [IndexError],
    whatever the cell, in bounds or not: it returns the number of mines
    among the cells next to the cell that are in bounds, the cell itself
    left out, a number from 0 to 8. *)
Theorem nearby_mines_counts_neighbours
    (draws : list (nat * nat)) (h w n : Z) (g : Minesweeper.t) (cell : Cell) :
  Minesweeper.init draws h w n = Py.Returned g →
  Minesweeper.nearby_mines g cell
  = Some (Layout.mines_around (Minesweeper.mines g) h w cell)
  ∧ 0 <= Layout.mines_around (Minesweeper.mines g) h w cell <= 8.
Proof.
  intros [(Hh & Hw & _ & Hb) _]%init_placed.
  split; [|apply mines_around_bounds].
  rewrite nearby_mines_layout by done. by rewrite Hh, Hw.
Qed.

Lemma nearby_mines_counts_neighbours_witness :
  Minesweeper.nearby_mines Scenario.centre_mine (0, 0)
  = Some (Layout.mines_around (Minesweeper.mines Scenario.centre_mine) 3 3
            (0, 0))
  ∧ 0 <= Layout.mines_around (Minesweeper.mines Scenario.centre_mine) 3 3
           (0, 0) <= 8.
Proof.
  apply (nearby_mines_counts_neighbours [(1, 1)%nat] 3 3 1).
  vm_compute. reflexivity.
Defined.

(** X16. [is_mine] on a constructed game follows Python's indexing: for a
    row index from [-height] to [height - 1] and a column index from
    [-width] to [width - 1] it answers for the cell counted from the end
    when an index is negative, and for every other cell it raises
    [IndexError]. *)
Theorem is_mine_wraps_negative_indices
    (draws : list (nat * nat)) (h w n : Z) (g : Minesweeper.t) (i j : Z) :
  Minesweeper.init draws h w n = Py.Returned g →
  (- h <= i < h → - w <= j < w →
   Minesweeper.is_mine g (i, j)
   = Some (bool_decide ((i mod h, j mod w) ∈ Minesweeper.mines g)))
  ∧ (¬ (- h <= i < h ∧ - w <= j < w) → Minesweeper.is_mine g (i, j) = None).
Proof.
  intros Hinit.
  pose proof (init_placed _ _ _ _ _ Hinit) as [(Hh & Hw & _ & Hb) _].
  destruct (place_mines_shaped h w draws n
              (Minesweeper.Game h w ∅ (Minesweeper.empty_board h w) ∅) g)
    as [[Hlen Hrows] _]; try done.
  { split; [done|]. split; [done|]. split.
    - intros c Hc. simpl in Hc. set_solver.
    - intros c Hc. unfold Minesweeper.is_mine. simpl in *.
      by rewrite empty_board_get. }
  { apply shaped_empty_board. }
  unfold Minesweeper.is_mine, Minesweeper.board_get. simpl. split.
  - intros Hi Hj.
    destruct (index_wrap (Minesweeper.board g) h i Hlen Hi) as [Hi' ->].
    destruct (lookup_lt_is_Some_2 (Minesweeper.board g) (Z.to_nat (i mod h)))
      as [row Hrow]; [lia|].
    rewrite Hrow. simpl.
    pose proof (Forall_lookup_1 _ _ _ _ Hrows Hrow) as Hrl.
    destruct (index_wrap row w j Hrl Hj) as [Hj' ->].
    assert (Layout.in_bounds (Minesweeper.height g) (Minesweeper.width g)
              (i mod h, j mod w)) as Hc.
    { rewrite Hh, Hw. done. }
    specialize (Hb _ Hc). unfold Minesweeper.is_mine in Hb. simpl in Hb.
    rewrite board_get_nonneg in Hb by lia. by rewrite Hrow in Hb.
  - intros Hout.
    destruct (decide (- h <= i < h)) as [Hi|Hi].
    + destruct (index_wrap (Minesweeper.board g) h i Hlen Hi) as [Hi' ->].
      destruct (Minesweeper.board g !! Z.to_nat (i mod h)) as [row|] eqn:Hrow;
        [|done].
      simpl. pose proof (Forall_lookup_1 _ _ _ _ Hrows Hrow) as Hrl.
      apply (index_outside row w j Hrl). tauto.
    + by rewrite (index_outside _ h i Hlen Hi).
Qed.

Lemma is_mine_wraps_negative_indices_witness :
  Minesweeper.is_mine Scenario.row_mine (-1, -3)
  = Some (bool_decide (((-1) mod 1, (-3) mod 5)
                       ∈ Minesweeper.mines Scenario.row_mine))
  ∧ Minesweeper.is_mine Scenario.row_mine (0, 5) = None.
Proof.
  assert (Minesweeper.init [(0, 2)%nat] 1 5 1
          = Py.Returned Scenario.row_mine) as Hinit by (vm_compute; reflexivity).
  split.
  - apply (is_mine_wraps_negative_indices _ _ _ _ _ (-1) (-3) Hinit); lia.
  - apply (is_mine_wraps_negative_indices _ _ _ _ _ 0 5 Hinit). lia.
Defined.

(** X17. The constructor returns only when the number of mines asked for
    can be placed: it is 0, or the field has at least one cell and the
    number is from 1 to [height * width].  For any other number no run of
    the constructor returns.  A game that is returned has found no mine
    yet, so [won()] is true exactly when it has no mines. *)
Theorem constructor_returns_only_if_feasible
    (draws : list (nat * nat)) (h w n : Z) (g : Minesweeper.t) :
  Minesweeper.init draws h w n = Py.Returned g →
  (n = 0 ∨ (0 < h ∧ 0 < w ∧ 0 < n <= h * w))
  ∧ Minesweeper.mines_found g = ∅
  ∧ (Minesweeper.won g = true ↔ n = 0).
Proof.
  intros Hinit.
  pose proof (init_placed _ _ _ _ _ Hinit) as [(Hh & Hw & Hin & Hb) Hn].
  destruct (place_mines_shaped h w draws n
              (Minesweeper.Game h w ∅ (Minesweeper.empty_board h w) ∅) g)
    as [_ Hmf]; try done.
  { split; [done|]. split; [done|]. split.
    - intros c Hc. simpl in Hc. set_solver.
    - intros c Hc. unfold Minesweeper.is_mine. simpl in *.
      by rewrite empty_board_get. }
  { apply shaped_empty_board. }
  unfold Py.len in Hn. split; [|split; [done|]].
  - destruct (decide (n = 0)) as [|Hn0]; [by left|]. right.
    destruct (size_pos_elem_of (Minesweeper.mines g)) as [c Hc]; [lia|].
    destruct (Hin c Hc) as [[? ?] [? ?]].
    pose proof (size_in_bounds h w (Minesweeper.mines g) Hin). nia.
  - unfold Minesweeper.won. rewrite Hmf. rewrite bool_decide_eq_true. split.
    + intros Heq. rewrite <- Heq, size_empty in Hn. lia.
    + intros ->.
      assert (size (Minesweeper.mines g) = 0%nat) as Hz%size_empty_inv by lia.
      set_solver.
Qed.

Lemma constructor_returns_only_if_feasible_witness :
  (1 = 0 ∨ (0 < 3 ∧ 0 < 3 ∧ 0 < 1 <= 3 * 3))
  ∧ Minesweeper.mines_found Scenario.centre_mine = ∅
  ∧ (Minesweeper.won Scenario.centre_mine = true ↔ 1 = 0).
Proof.
  apply (constructor_returns_only_if_feasible [(1, 1)%nat] 3 3 1).
  vm_compute. reflexivity.
Defined.

(** X18. The constructor can return for every field with at least one
    cell and every number of mines from 0 to [height * width]: there are
    draws of the random generator with which it does, and the game has
    that many mines. *)
Theorem constructor_can_return (h w n : Z) :
  0 < h → 0 < w → 0 <= n <= h * w →
  ∃ draws g, Minesweeper.init draws h w n = Py.Returned g
             ∧ Py.len (Minesweeper.mines g) = n.
Proof.
  intros Hh Hw Hn. destruct (init_can_return h w n Hh Hw Hn) as (draws & g & Hg).
  exists draws, g. split; [done|]. by apply init_placed in Hg as [_ ?].
Qed.

Lemma constructor_can_return_witness :
  ∃ draws g, Minesweeper.init draws 2 2 4 = Py.Returned g
             ∧ Py.len (Minesweeper.mines g) = 4.
Proof. apply (constructor_can_return 2 2 4); lia. Defined.

(** X19. The errors of the constructor.  With no mines asked for it
    returns the empty field without a draw, also for a height or width
    that is not positive.  With mines asked for and a height that is not
    positive, or a positive height and a width that is not positive, the
    first [randrange] raises [ValueError].  No run of the constructor
    raises [IndexError]. *)
Theorem constructor_errors
    (draws : list (nat * nat)) (h w n : Z) :
  Minesweeper.init draws h w 0
  = Py.Returned (Minesweeper.Game h w ∅ (Minesweeper.empty_board h w) ∅)
  ∧ (n ≠ 0 → draws ≠ [] → h <= 0 ∨ w <= 0 →
     Minesweeper.init draws h w n
     = Py.Raised Py.ValueError
         (Minesweeper.Game h w ∅ (Minesweeper.empty_board h w) ∅))
  ∧ (∀ g, Minesweeper.init draws h w n ≠ Py.Raised Py.IndexError g).
Proof.
  split; [by destruct draws|]. split.
  - intros Hn Hd Hhw. destruct draws as [|[di dj] draws]; [done|].
    unfold Minesweeper.init. simpl.
    rewrite decide_False by (unfold Py.len; rewrite size_empty; lia).
    unfold Minesweeper.randrange.
    destruct (decide (0 < h)); [|done].
    by rewrite decide_False by lia.
  - intros g Hg.
    apply (place_mines_raises h w) in Hg; [done|].
    split; [done|]. split; [done|]. split.
    + intros c Hc. simpl in Hc. set_solver.
    + intros c Hc. unfold Minesweeper.is_mine. simpl in *.
      by rewrite empty_board_get.
Qed.

Lemma constructor_errors_witness :
  Minesweeper.init [(0, 0)%nat] 0 3 2
  = Py.Raised Py.ValueError
      (Minesweeper.Game 0 3 ∅ (Minesweeper.empty_board 0 3) ∅).
Proof.
  apply (constructor_errors [(0, 0)%nat] 0 3 2); [lia|discriminate|lia].
Defined.

(** X20. The safe move is safe.  After a sequence of calls on a new
    knowledge base that tells the truth about one mine layout, the cell
    that [make_safe_move] returns, in whichever order it goes through
    [safes], is no mine of the layout and has not been played, and no
    known mine is returned by [make_random_move]. *)
Theorem safe_move_is_no_mine
    (M : gset Cell) (h w : Z) (ops : list Calls.op) :
  Forall (Layout.truthful M h w) ops →
  ∃ ai', Calls.run ops (MinesweeperAI.init h w) = Some ai'
         ∧ (∀ order c,
              Py.iterates (MinesweeperAI.safes ai') order →
              MinesweeperAI.make_safe_move order ai' = Some c →
              (c ∉ M) ∧ c ∉ MinesweeperAI.moves_made ai')
         ∧ (∀ pick c, MinesweeperAI.make_random_move pick ai' = Some c →
                      c ∉ MinesweeperAI.mines ai').
Proof.
  intros Hops.
  destruct (run_grows ops (MinesweeperAI.init h w)) as (ai' & Hrun & _).
  exists ai'. split; [done|].
  pose proof (sound_run M h w ops (MinesweeperAI.init h w) ai'
                eq_refl eq_refl Hops (sound_init M h w) Hrun) as (_ & Hs & _).
  split.
  - unfold MinesweeperAI.make_safe_move.
    intros order c [_ Hset] Hc%head_Some_elem_of.
    apply list_elem_of_filter in Hc as [Hm Hc].
    split; [|done]. intros HcM. apply (Hs c); [|done].
    rewrite <- Hset. by apply elem_of_list_to_set.
  - unfold MinesweeperAI.make_random_move. intros pick c.
    pose proof (elem_of_randSet ai' c) as Hel.
    destruct (_ ≫= _) as [|c0 l]; [done|].
    intros Hc%list_elem_of_lookup_2. by apply Hel in Hc as (_ & ? & _).
Qed.

Lemma safe_move_is_no_mine_witness :
  ∃ ai', Calls.run [Calls.AddKnowledge (0, 0) 0]
                   (MinesweeperAI.init 3 3) = Some ai'
         ∧ (∀ order c,
              Py.iterates (MinesweeperAI.safes ai') order →
              MinesweeperAI.make_safe_move order ai' = Some c →
              (c ∉ ({[(2, 2)]} : gset Cell))
              ∧ c ∉ MinesweeperAI.moves_made ai')
         ∧ (∀ pick c, MinesweeperAI.make_random_move pick ai' = Some c →
                      c ∉ MinesweeperAI.mines ai').
Proof.
  apply (safe_move_is_no_mine {[(2, 2)]} 3 3).
  repeat (apply Forall_cons; split); try apply Forall_nil; simpl;
    try (split; [|vm_compute; reflexivity]);
    apply (bool_decide_unpack _); vm_compute; exact I.
Defined.

(** ** The text that [print] writes *)

Section Picture.

Import Minesweeper Layout Field Render.
Implicit Types (g : Minesweeper.t) (t : list ascii) (M : gset Cell).

Lemma print_cells_text M b (i : Z) (l : list Z) t :
  (∀ j, j ∈ l →
        board_get b i j = Some (bool_decide ((i, j) ∈ M))) →
  foldl (print_cell b i) (Py.Returned t) l
  = Py.Returned
      (t ++ concat (map (λ j, text (if bool_decide ((i, j) ∈ M)
                                    then "|X" else "| ")) l)).
Proof.
  revert t. induction l as [|j l IH]; intros t Hl; simpl.
  { by rewrite app_nil_r. }
  rewrite (Hl j) by (by left).
  destruct (bool_decide ((i, j) ∈ M)); simpl;
    (rewrite IH by (intros j' Hj'; apply Hl; by right));
    by rewrite <- app_assoc.
Qed.

Lemma print_rows_text g (l : list Z) t :
  board_agrees g →
  (∀ i, i ∈ l → 0 <= i < height g) →
  foldl (print_row g) (Py.Returned t) l
  = Py.Returned
      (t ++ concat (map (λ i, rule (width g) ++ newline
                              ++ row_picture (mines g) (width g) i ++ newline)
                        l)).
Proof.
  intros Hb. revert t. induction l as [|i l IH]; intros t Hl.
  { simpl. by rewrite app_nil_r. }
  cbn [foldl print_row map concat].
  rewrite (print_cells_text (mines g)).
  - rewrite IH by (intros i' Hi'; apply Hl; by right).
    unfold row_picture. by rewrite <- !app_assoc.
  - intros j Hj%elem_of_range.
    apply (Hb (i, j)). split; [apply Hl; by left|done].
Qed.

Lemma rule_length w : length (rule w) = (2 * Z.to_nat w + 1)%nat.
Proof.
  unfold rule. rewrite length_app. simpl.
  induction (Z.to_nat w) as [|k IH]; simpl in *; lia.
Qed.

Lemma row_picture_length M w i :
  length (row_picture M w i) = (2 * Z.to_nat w + 1)%nat.
Proof.
  unfold row_picture. rewrite length_app, <- (range_length w). simpl.
  induction (Py.range w) as [|j l IH]; simpl in *; [done|].
  rewrite length_app. destruct (bool_decide _); simpl; lia.
Qed.

Lemma picture_length M h w :
  length (picture M h w)
  = ((2 * Z.to_nat h + 1) * (2 * Z.to_nat w + 2))%nat.
Proof.
  unfold picture. rewrite !length_app, rule_length, <- (range_length h).
  change (length newline) with 1%nat.
  induction (Py.range h) as [|i l IH]; [simpl; lia|].
  cbn [map concat length].
  rewrite !length_app, rule_length, row_picture_length.
  change (length newline) with 1%nat. lia.
Qed.

Lemma crosses_app t1 t2 : crosses (t1 ++ t2) = (crosses t1 + crosses t2)%nat.
Proof. unfold crosses. by rewrite filter_app, length_app. Qed.

Lemma crosses_rule w : crosses (rule w) = 0%nat.
Proof.
  unfold rule. rewrite crosses_app.
  change (crosses (text "-")) with 0%nat.
  induction (Z.to_nat w) as [|k IH]; [done|].
  cbn [replicate concat]. rewrite crosses_app.
  change (crosses (text "--")) with 0%nat. lia.
Qed.

Lemma crosses_row M w i :
  crosses (row_picture M w i)
  = length (filter (λ c, c ∈ M) (j ← Py.range w; [(i, j)])).
Proof.
  unfold row_picture. rewrite crosses_app.
  change (crosses (text "|")) with 0%nat. rewrite Nat.add_0_r.
  induction (Py.range w) as [|j l IH]; [done|].
  cbn [map concat]. csimpl. rewrite crosses_app, IH.
  rewrite filter_cons. case_bool_decide as Hm.
  - rewrite decide_True by done. done.
  - rewrite decide_False by done. done.
Qed.

Lemma crosses_picture M h w :
  crosses (picture M h w) = length (filter (λ c, c ∈ M) (grid h w)).
Proof.
  unfold picture, grid. rewrite !crosses_app, crosses_rule.
  change (crosses newline) with 0%nat. rewrite !Nat.add_0_r.
  induction (Py.range h) as [|i l IH]; [done|].
  cbn [map concat]. rewrite bind_cons.
  rewrite !crosses_app, crosses_rule, crosses_row, IH.
  change (crosses newline) with 0%nat.
  rewrite filter_app, length_app. lia.
Qed.

Lemma grid_NoDup h w : NoDup (grid h w).
Proof.
  assert (∀ n, NoDup (Py.range n)) as Hrange.
  { intros n. unfold Py.range. change (map Z.of_nat ?l) with (Z.of_nat <$> l).
    apply NoDup_fmap_2; [apply _|apply NoDup_seq]. }
  unfold grid. apply NoDup_bind; [| |apply Hrange].
  - intros i1 i2 c _ _ (j1 & Hc1 & _)%list_elem_of_bind
      (j2 & Hc2 & _)%list_elem_of_bind.
    apply list_elem_of_singleton in Hc1, Hc2. congruence.
  - intros i _. apply NoDup_bind; [| |apply Hrange].
    + intros j1 j2 c _ _ Hc1%list_elem_of_singleton Hc2%list_elem_of_singleton.
      congruence.
    + intros j _. apply NoDup_singleton.
Qed.

(** The cells of a set in bounds, counted on the field. *)
Lemma filter_grid_size (h w : Z) M :
  (∀ c, c ∈ M → in_bounds h w c) →
  length (filter (λ c, c ∈ M) (grid h w)) = size M.
Proof.
  intros HM. rewrite <- (size_list_to_set_inter M (grid h w))
    by apply grid_NoDup.
  f_equal. apply set_eq. intros c.
  rewrite elem_of_intersection, elem_of_list_to_set, elem_of_grid.
  naive_solver.
Qed.

End Picture.

(** X21. On a constructed game [print] raises no [IndexError] and writes
    the picture of the field: a rule of [2 * width + 1] dashes, then for
    every row, in order, the row, [|X] for each mine and [| ] for each
    other cell with a closing bar, and a rule again.  The text has
    [2 * height + 1] lines of [2 * width + 1] characters and shows as many
    [X] as the game has mines. *)
Theorem print_shows_the_mines
    (draws : list (nat * nat)) (h w n : Z) (g : Minesweeper.t) :
  Minesweeper.init draws h w n = Py.Returned g →
  Render.print g = Py.Returned (Render.picture (Minesweeper.mines g) h w)
  ∧ length (Render.picture (Minesweeper.mines g) h w)
    = ((2 * Z.to_nat h + 1) * (2 * Z.to_nat w + 2))%nat
  ∧ Z.of_nat (Render.crosses (Render.picture (Minesweeper.mines g) h w)) = n.
Proof.
  intros [(Hh & Hw & Hin & Hb) Hn]%init_placed.
  split; [|split].
  - unfold Render.print. rewrite print_rows_text; [|done|].
    + simpl. unfold Render.picture. by rewrite Hh, Hw.
    + by intros i Hi%elem_of_range.
  - apply picture_length.
  - rewrite crosses_picture, filter_grid_size by done. exact Hn.
Qed.

Lemma print_shows_the_mines_witness :
  Render.print Scenario.top_mine
  = Py.Returned (Render.picture (Minesweeper.mines Scenario.top_mine) 2 3)
  ∧ length (Render.picture (Minesweeper.mines Scenario.top_mine) 2 3)
    = ((2 * Z.to_nat 2 + 1) * (2 * Z.to_nat 3 + 2))%nat
  ∧ Z.of_nat (Render.crosses
                (Render.picture (Minesweeper.mines Scenario.top_mine) 2 3))
    = 1.
Proof.
  apply (print_shows_the_mines [(0, 1)%nat] 2 3 1).
  vm_compute. reflexivity.
Defined.
